(** * Channel manager: local subscription registry and room membership

    A shallow embedding of [ChannelManager] (lib/channel-manager.js) and of the
    plugin that uses it (lib/index.js).

    Conventions of the embedding.
    - [this.subscribers] is a JavaScript object used as a map from channel
      ids to listener tables; its own properties are a [gmap string _].  It
      is created as [{}], so [this.subscribers[channel]] also finds the members
      of [Object.prototype]; they and the listeners that end up stored on them
      are modelled, see [Object_prototype] and [subscribers_at].  Once a
      listener is stored on [Object.prototype] itself (channel [__proto__]),
      its id is an inherited property of every object of the process; the
      model follows it where lodash indexes a built-in function, and nowhere
      else: channel ids that are the decimal form of such an id are outside
      the model.
    - A listener table is a JavaScript object whose keys are the numeric
      listener ids.  The order in which its own keys are enumerated matters
      for dispatch, so it is an association list kept in ascending key order,
      which is the enumeration order of integer keys.
    - A callback is the function of the message it is called with; it either
      returns or throws.  Callbacks that call back into the manager while a
      message is being dispatched are outside the model.
    - The two redis connections are modelled by the commands sent on them;
      the connection [pubConn] also carries the sets held by the store.
    - A promise is modelled by its settled outcome; operations run one after
      the other. *)

From stdpp Require Import gmap strings list fin_maps sorting pretty.

(** ** Callbacks and listener tables *)

(** How a call of a JavaScript function completes. *)
Inductive completion : Type :=
  | Returns
  | Throws (e : string).

(** A listener: [fn(message)]. *)
Definition callback : Type := string -> completion.

Module Obj.

(** A listener table, [{ id: fn, ... }], own keys ascending. *)
Abbreviation t := (list (nat * callback)) (only parsing).

(** [o[id]] *)
Fixpoint get (id : nat) (o : t) : option callback :=
  match o with
  | [] => None
  | (k, g) :: o' => if decide (k = id) then Some g else get id o'
  end.

(** [o[id] = fn] *)
Fixpoint set (id : nat) (fn : callback) (o : t) : t :=
  match o with
  | [] => [(id, fn)]
  | (k, g) :: o' =>
      if decide (id < k) then (id, fn) :: (k, g) :: o'
      else if decide (id = k) then (id, fn) :: o'
      else (k, g) :: set id fn o'
  end.

(** [delete o[id]] *)
Fixpoint delete (id : nat) (o : t) : t :=
  match o with
  | [] => []
  | (k, g) :: o' => if decide (k = id) then delete id o' else (k, g) :: delete id o'
  end.

(** [_.keys(o)] *)
Definition keys (o : t) : list nat := map fst o.

End Obj.

(** ** The redis connections *)

(** Commands sent on the subscription connection. *)
Inductive sub_command : Type :=
  | SUBSCRIBE (channel : string)
  | UNSUBSCRIBE (channel : string).

(** Commands sent on the publishing connection. *)
Inductive pub_command : Type :=
  | PUBLISH (channel message : string)
  | SADD (key member : string)
  | SREM (key member : string)
  | SMEMBERS (key : string)
  | DEL (key : string).

#[global] Instance sub_command_eq_dec : EqDecision sub_command.
Proof. solve_decision. Defined.

#[global] Instance pub_command_eq_dec : EqDecision pub_command.
Proof. solve_decision. Defined.

(** The channels the broker delivers to a connection that has sent [log]
    (oldest command first). *)
Definition active (log : list sub_command) : gset string :=
  foldl (fun s cmd =>
           match cmd with
           | SUBSCRIBE c => {[c]} ∪ s
           | UNSUBSCRIBE c => s ∖ {[c]}
           end) ∅ log.

(** The settled outcome of a promise. *)
Inductive promise (A : Type) : Type :=
  | Resolved (value : A)
  | Rejected (reason : string).
Arguments Resolved {A} value.
Arguments Rejected {A} reason.

Definition resolved {A} (p : promise A) : bool :=
  match p with Resolved _ => true | Rejected _ => false end.

(** Modelled from the spec: the external durable set storage behind
    [pubConn], which is not part of the repository.  One named set of channel
    ids per key; a set that loses its last member is gone, so that a room
    without members and a room that never existed are the same.  [sent] is the
    list of commands the connection has issued, oldest first. *)
Record redis : Type := Redis {
  sets : gmap string (gset string);
  sent : list pub_command
}.

Definition smembers_of (key : string) (r : redis) : gset string :=
  default ∅ (sets r !! key).

(** Modelled from the spec: [SADD key member]; adding a member that is
    already there changes nothing.  The reply is the number of members
    added. *)
Definition sadd (key member : string) (r : redis) : promise nat * redis :=
  let s := smembers_of key r in
  if decide (member ∈ s) then
    (Resolved 0, Redis (sets r) (sent r ++ [SADD key member]))
  else
    (Resolved 1, Redis (<[key := {[member]} ∪ s]> (sets r)) (sent r ++ [SADD key member])).

(** Modelled from the spec: [SREM key member]; removing a member that is not
    there changes nothing, removing the last one removes the key.  The reply is
    the number of members removed. *)
Definition srem (key member : string) (r : redis) : promise nat * redis :=
  let s := smembers_of key r in
  if decide (member ∈ s) then
    let s' := s ∖ {[member]} in
    (Resolved 1,
     Redis (if decide (s' = ∅) then delete key (sets r) else <[key := s']> (sets r))
           (sent r ++ [SREM key member]))
  else
    (Resolved 0, Redis (sets r) (sent r ++ [SREM key member])).

(** Modelled from the spec: [SMEMBERS key], the members in some order; the
    empty array for a key that does not exist.  The store of the model always
    answers; what [broadcast] does when the read fails is in
    [then_publish]. *)
Definition smembers (key : string) (r : redis) : promise (list string) * redis :=
  (Resolved (elements (smembers_of key r)),
   Redis (sets r) (sent r ++ [SMEMBERS key])).

(** Modelled from the spec: [DEL key], the reply is the number of keys
    removed. *)
Definition del (key : string) (r : redis) : promise nat * redis :=
  (Resolved (if sets r !! key is Some _ then 1 else 0),
   Redis (delete key (sets r)) (sent r ++ [DEL key])).

(** ** What an object literal inherits *)

(** A member of [Object.prototype]: a built-in function, with its [length],
    or, for [__proto__], [Object.prototype] itself. *)
Inductive inherited_value : Type :=
  | BuiltinFunction (length : nat)
  | ObjectPrototype.

(** Modelled from the language: the members of [Object.prototype], which
    every object created as [{}] inherits. *)
Definition Object_prototype_members : list (string * inherited_value) :=
  [ ("constructor", BuiltinFunction 1);
    ("toString", BuiltinFunction 0);
    ("toLocaleString", BuiltinFunction 0);
    ("valueOf", BuiltinFunction 0);
    ("hasOwnProperty", BuiltinFunction 1);
    ("isPrototypeOf", BuiltinFunction 1);
    ("propertyIsEnumerable", BuiltinFunction 1);
    ("__defineGetter__", BuiltinFunction 2);
    ("__defineSetter__", BuiltinFunction 2);
    ("__lookupGetter__", BuiltinFunction 1);
    ("__lookupSetter__", BuiltinFunction 1);
    ("__proto__", ObjectPrototype) ].

Fixpoint member_named (name : string) (members : list (string * inherited_value))
  : option inherited_value :=
  match members with
  | [] => None
  | (n, v) :: members' => if decide (n = name) then Some v else member_named name members'
  end.

(** [({})[name]], when [name] is no own property. *)
Definition Object_prototype (name : string) : option inherited_value :=
  member_named name Object_prototype_members.

(** ** The manager *)

(** [builtins] holds, by member name, the integer-keyed properties that
    calls of the manager have put on the members of [Object.prototype]. *)
Record ChannelManager : Type := Manager {
  subscribers : gmap string Obj.t;
  nextId : nat;
  subConn : list sub_command;
  pubConn : redis;
  builtins : gmap string Obj.t
}.

(** [new ChannelManager(settings)], connected to a store in state [store],
    in a process that has stored nothing on the members of
    [Object.prototype]. *)
Definition create (store : gmap string (gset string)) : ChannelManager :=
  Manager ∅ 0 [] (Redis store []) ∅.

(** The capability returned by [subscribe]:
    [this.unsubscribe.bind(this, channel, id)]. *)
Definition handle : Type := (string * nat)%type.

(** What [this.subscribers[channel]] evaluates to. *)
Inductive value : Type :=
  | Table (subs : Obj.t)
  | Inherited (v : inherited_value) (props : Obj.t)
  | undefined.

(** The integer-keyed properties stored on the member [name] of
    [Object.prototype]. *)
Definition props_on (cm : ChannelManager) (name : string) : Obj.t :=
  default [] (builtins cm !! name).

(** [this.subscribers[channel]]: the own property, else the inherited one. *)
Definition subscribers_at (cm : ChannelManager) (channel : string) : value :=
  match subscribers cm !! channel with
  | Some subs => Table subs
  | None =>
      match Object_prototype channel with
      | Some v => Inherited v (props_on cm channel)
      | None => undefined
      end
  end.

(** [ChannelManager.prototype.subscribe]: an inherited value is truthy, so no
    entry is created and nothing is sent, and [subs[id] = fn] stores the
    listener on the inherited value. *)
Definition subscribe (channel : string) (fn : callback) (cm : ChannelManager)
  : handle * ChannelManager :=
  let id := nextId cm in
  ((channel, id),
   match subscribers_at cm channel with
   | Table subs =>
       Manager (<[channel := Obj.set id fn subs]> (subscribers cm)) (S id)
               (subConn cm) (pubConn cm) (builtins cm)
   | Inherited _ props =>
       Manager (subscribers cm) (S id) (subConn cm) (pubConn cm)
               (<[channel := Obj.set id fn props]> (builtins cm))
   | undefined =>
       Manager (<[channel := Obj.set id fn []]> (subscribers cm)) (S id)
               (subConn cm ++ [SUBSCRIBE channel]) (pubConn cm) (builtins cm)
   end).

(** [ChannelManager.prototype.unsubscribe]: on an inherited value the listener
    is deleted from that value, and when it has no enumerable key left the
    [delete] of the entry finds no own property and UNSUBSCRIBE is sent. *)
Definition unsubscribe (channel : string) (listenerId : nat) (cm : ChannelManager)
  : ChannelManager :=
  match subscribers_at cm channel with
  | Table subs =>
      let subs := Obj.delete listenerId subs in
      if decide (length (Obj.keys subs) = 0) then
        Manager (delete channel (subscribers cm)) (nextId cm)
                (subConn cm ++ [UNSUBSCRIBE channel]) (pubConn cm) (builtins cm)
      else
        Manager (<[channel := subs]> (subscribers cm)) (nextId cm)
                (subConn cm) (pubConn cm) (builtins cm)
  | Inherited _ props =>
      let props := Obj.delete listenerId props in
      if decide (length (Obj.keys props) = 0) then
        Manager (delete channel (subscribers cm)) (nextId cm)
                (subConn cm ++ [UNSUBSCRIBE channel]) (pubConn cm)
                (<[channel := props]> (builtins cm))
      else
        Manager (subscribers cm) (nextId cm) (subConn cm) (pubConn cm)
                (<[channel := props]> (builtins cm))
  | undefined => cm
  end.

(** Invoking a handle. *)
Definition invoke (h : handle) (cm : ChannelManager) : ChannelManager :=
  unsubscribe h.1 h.2 cm.

(** [_.forEach(subs, function (subscriber) { subscriber(message); })] on an
    object without [length]: the calls made, as (listener id, argument) in the
    order they are made, and how the iteration completes.  Nothing catches
    what a subscriber throws. *)
Fixpoint forEach (subs : Obj.t) (message : string) : list (nat * string) * completion :=
  match subs with
  | [] => ([], Returns)
  | (id, subscriber) :: rest =>
      match subscriber message with
      | Returns =>
          let '(calls, c) := forEach rest message in ((id, message) :: calls, c)
      | Throws e => ([(id, message)], Throws e)
      end
  end.

(** [F[index]] for a built-in function [F] with the own properties [own]: the
    own property, else the one of [Object.prototype]. *)
Definition at_index (own proto : Obj.t) (index : nat) : option callback :=
  match Obj.get index own with
  | Some fn => Some fn
  | None => Obj.get index proto
  end.

(** [_.forEach] on a value with a [length], which lodash 3 takes for an
    array also when it is a function: the indices below [length] are visited
    in order, and calling what is [undefined] throws a [TypeError]. *)
Fixpoint arrayEach (indices : list nat) (own proto : Obj.t) (message : string)
  : list (nat * string) * completion :=
  match indices with
  | [] => ([], Returns)
  | index :: rest =>
      match at_index own proto index with
      | Some subscriber =>
          match subscriber message with
          | Returns =>
              let '(calls, c) := arrayEach rest own proto message in
              ((index, message) :: calls, c)
          | Throws e => ([(index, message)], Throws e)
          end
      | None => ([], Throws "TypeError: undefined is not a function")
      end
  end.

(** What a delivery does: the manager afterwards, the calls made and how the
    handler completes. *)
Record delivery : Type := Delivery {
  after : ChannelManager;
  calls : list (nat * string);
  outcome : completion
}.

(** The handler registered with [this.subConn.on('message', ...)]. *)
Definition on_message (channel message : string) (cm : ChannelManager) : delivery :=
  match subscribers_at cm channel with
  | Table subs =>
      let '(calls, c) := forEach subs message in Delivery cm calls c
  | Inherited (BuiltinFunction length) props =>
      let '(calls, c) :=
        arrayEach (seq 0 length) props (props_on cm "__proto__") message in
      Delivery cm calls c
  | Inherited ObjectPrototype props =>
      let '(calls, c) := forEach props message in Delivery cm calls c
  | undefined => Delivery cm [] Returns
  end.

(** The listener registered under [id] on [channel], if any: in the table of
    the channel, or on the inherited value that the channel id names. *)
Definition listener (cm : ChannelManager) (channel : string) (id : nat) : option callback :=
  match subscribers_at cm channel with
  | Table subs => Obj.get id subs
  | Inherited _ props => Obj.get id props
  | undefined => None
  end.

(** A channel id that names no member of [Object.prototype]. *)
Definition plain (channel : string) : Prop := Object_prototype channel = None.

(** ** Rooms *)

(** [subscribersKey]: [util.format('room:%s:channels', room)] *)
Definition subscribersKey (room : string) : string :=
  "room:" +:+ room +:+ ":channels".

(** Running a command on [pubConn], as [q.ninvoke(this.pubConn, ...)] does. *)
Definition ninvoke {A} (command : redis -> promise A * redis) (cm : ChannelManager)
  : promise A * ChannelManager :=
  let '(p, r) := command (pubConn cm) in
  (p, Manager (subscribers cm) (nextId cm) (subConn cm) r (builtins cm)).

(** [ChannelManager.prototype.enter] *)
Definition enter (room channel : string) : ChannelManager -> promise nat * ChannelManager :=
  ninvoke (sadd (subscribersKey room) channel).

(** [ChannelManager.prototype.leave] *)
Definition leave (room channel : string) : ChannelManager -> promise nat * ChannelManager :=
  ninvoke (srem (subscribersKey room) channel).

(** [ChannelManager.prototype.members] *)
Definition members (room : string) : ChannelManager -> promise (list string) * ChannelManager :=
  ninvoke (smembers (subscribersKey room)).

(** [ChannelManager.prototype.close] *)
Definition close (room : string) : ChannelManager -> promise nat * ChannelManager :=
  ninvoke (del (subscribersKey room)).

(** [q.all(promises)]: resolved with all the values when every promise is
    resolved, rejected as soon as one is. *)
Fixpoint q_all {A} (ps : list (promise A)) : promise (list A) :=
  match ps with
  | [] => Resolved []
  | Resolved v :: ps' =>
      match q_all ps' with
      | Resolved vs => Resolved (v :: vs)
      | Rejected e => Rejected e
      end
  | Rejected e :: _ => Rejected e
  end.

Section Broker.

(** How the broker answers a [PUBLISH]: the number of receivers, or an
    error. *)
Variable ack : string -> string -> promise nat.

(** [PUBLISH channel message] on a connection. *)
Definition redis_publish (channel message : string) (r : redis) : promise nat * redis :=
  (ack channel message, Redis (sets r) (sent r ++ [PUBLISH channel message])).

(** [ChannelManager.prototype.publish] *)
Definition publish (channel message : string)
  : ChannelManager -> promise nat * ChannelManager :=
  ninvoke (redis_publish channel message).

(** [subscribers.map(function (channel) { return self.publish(channel, message); })] *)
Fixpoint publish_each (subscribers : list string) (message : string) (cm : ChannelManager)
  : list (promise nat) * ChannelManager :=
  match subscribers with
  | [] => ([], cm)
  | channel :: rest =>
      let '(p, cm1) := publish channel message cm in
      let '(ps, cm2) := publish_each rest message cm1 in
      (p :: ps, cm2)
  end.

(** [.then(function (subscribers) { return q.all(subscribers.map(...)); })]
    on the settled outcome of [members]: a rejection passes through, and
    nothing is published. *)
Definition then_publish (message : string) (m : promise (list string))
    (cm1 : ChannelManager) : promise (list nat) * ChannelManager :=
  match m with
  | Resolved subscribers =>
      let '(ps, cm2) := publish_each subscribers message cm1 in
      (q_all ps, cm2)
  | Rejected e => (Rejected e, cm1)
  end.

(** [ChannelManager.prototype.broadcast] *)
Definition broadcast (room message : string) (cm : ChannelManager)
  : promise (list nat) * ChannelManager :=
  let '(m, cm1) := members room cm in
  then_publish message m cm1.

End Broker.

(** ** Sequences of registry operations *)

Inductive op : Type :=
  | Subscribe (channel : string) (fn : callback)
  | Unsubscribe (channel : string) (listenerId : nat).

Definition step (cm : ChannelManager) (o : op) : ChannelManager :=
  match o with
  | Subscribe channel fn => (subscribe channel fn cm).2
  | Unsubscribe channel listenerId => unsubscribe channel listenerId cm
  end.

Definition run (ops : list op) (cm : ChannelManager) : ChannelManager :=
  foldl step cm ops.

(** What can happen to the registry: a call of the interface, or the entry of
    a channel removed by other means ([delete manager.subscribers[channel]]). *)
Inductive event : Type :=
  | Call (o : op)
  | Removed (channel : string).

Definition remove_entry (channel : string) (cm : ChannelManager) : ChannelManager :=
  Manager (delete channel (subscribers cm)) (nextId cm) (subConn cm) (pubConn cm)
          (builtins cm).

Definition happen (cm : ChannelManager) (ev : event) : ChannelManager :=
  match ev with
  | Call o => step cm o
  | Removed channel => remove_entry channel cm
  end.

Definition play (evs : list event) (cm : ChannelManager) : ChannelManager :=
  foldl happen cm evs.

(** ** Predicates over managers and calls *)

(** Every listener table of the registry has a listener and belongs to a
    channel id that names no member of [Object.prototype]; the tables, and
    what is stored on inherited values, enumerate their ids in ascending order
    and hold only ids that were already handed out. *)
Definition tables_ok (cm : ChannelManager) : Prop :=
  (forall c subs, subscribers cm !! c = Some subs ->
     subs ≠ [] /\ StronglySorted lt (Obj.keys subs)
     /\ Forall (fun k => k < nextId cm) (Obj.keys subs))
  /\ (forall c subs, subscribers cm !! c = Some subs -> plain c)
  /\ (forall c props, builtins cm !! c = Some props ->
        StronglySorted lt (Obj.keys props)
        /\ Forall (fun k => k < nextId cm) (Obj.keys props)).

(** The channels of the registry are the channels subscribed at the broker. *)
Definition broker_in_step (cm : ChannelManager) : Prop :=
  forall c, is_Some (subscribers cm !! c) <-> c ∈ active (subConn cm).

(** The calls to the listener registered under [id]. *)
Definition calls_to (id : nat) (l : list (nat * string)) : list (nat * string) :=
  filter (fun call => call.1 = id) l.

(** A command that publishes. *)
Definition is_publish (cmd : pub_command) : Prop :=
  match cmd with PUBLISH _ _ => True | _ => False end.

(** ** Managers and brokers used as examples *)

(** A listener that returns and one that throws. *)
Definition quiet : callback := fun _ => Returns.
Definition faulty : callback := fun _ => Throws "boom".

(** Two listeners on channel [me]: the first one throws, the second does not. *)
Definition faulty_then_quiet : ChannelManager :=
  run [Subscribe "me" faulty; Subscribe "me" quiet] (create ∅).

(** A broker that fails every publish to [you]. *)
Definition deaf_to_you : string -> string -> promise nat :=
  fun channel _ => if decide (channel = "you") then Rejected "ECONNRESET" else Resolved 1.

(** Two members, one of them out of reach. *)
Definition party : ChannelManager :=
  (enter "party-room" "you" (enter "party-room" "me" (create ∅)).2).2.

(** ** Channel ids that name no member of [Object.prototype] *)

Definition op_channel (o : op) : string :=
  match o with
  | Subscribe channel _ => channel
  | Unsubscribe channel _ => channel
  end.

Definition event_channel (ev : event) : string :=
  match ev with
  | Call o => op_channel o
  | Removed channel => channel
  end.

(** Calls whose channel ids name no member of [Object.prototype]. *)
Definition plain_ops (ops : list op) : Prop :=
  Forall (fun o => plain (op_channel o)) ops.

(** Nothing is stored on [Object.prototype] itself. *)
Definition unpolluted (cm : ChannelManager) : Prop :=
  props_on cm "__proto__" = [].

(** Events that store nothing on [Object.prototype] itself. *)
Definition spares_prototype (evs : list event) : Prop :=
  Forall (fun ev => event_channel ev ≠ "__proto__") evs.

(** A registry entry hides no member of [Object.prototype]. *)
Definition unshadowed_at (cm : ChannelManager) (c : string) : Prop :=
  is_Some (subscribers cm !! c) -> plain c.

(** A registry on which an entry for [constructor] was set from outside,
    while a listener is stored on the inherited value of that name. *)
Definition shadowing_constructor : ChannelManager :=
  Manager {["constructor" := [(5, quiet)]]} 8 [] (Redis ∅ [])
          {["constructor" := [(7, faulty)]]}.

(** A listener table stored on [toString] that becomes empty again. *)
Definition stale_on_toString : ChannelManager :=
  invoke ("toString", 0) (subscribe "toString" quiet (create ∅)).2.

(** ** Further predicates over registries and command logs *)

(** The number of [subscribe] calls among events. *)
Fixpoint count_subscribes (evs : list event) : nat :=
  match evs with
  | [] => 0
  | Call (Subscribe _ _) :: evs' => S (count_subscribes evs')
  | _ :: evs' => count_subscribes evs'
  end.

(** No listener id is registered under two channels. *)
Definition ids_owned_once (cm : ChannelManager) : Prop :=
  forall c d j, is_Some (listener cm c j) -> is_Some (listener cm d j) -> c = d.

(** A command log that, read from a connection subscribed to [seen], never
    subscribes to a channel that is subscribed and never unsubscribes from one
    that is not. *)
Fixpoint disciplined (seen : gset string) (log : list sub_command) : bool :=
  match log with
  | [] => true
  | SUBSCRIBE c :: log' => bool_decide (c ∉ seen) && disciplined ({[c]} ∪ seen) log'
  | UNSUBSCRIBE c :: log' => bool_decide (c ∈ seen) && disciplined (seen ∖ {[c]}) log'
  end.

(** ** Sequences of room operations, and of both kinds *)

(** The calls that go through [pubConn]. *)
Inductive room_op : Type :=
  | Enter (room channel : string)
  | Leave (room channel : string)
  | Members (room : string)
  | Close (room : string)
  | Broadcast (room message : string)
  | Publish (channel message : string).

Definition room_step (ack : string -> string -> promise nat)
    (cm : ChannelManager) (o : room_op) : ChannelManager :=
  match o with
  | Enter room channel => (enter room channel cm).2
  | Leave room channel => (leave room channel cm).2
  | Members room => (members room cm).2
  | Close room => (close room cm).2
  | Broadcast room message => (broadcast ack room message cm).2
  | Publish channel message => (publish ack channel message cm).2
  end.

Definition rooms (ack : string -> string -> promise nat)
    (os : list room_op) (cm : ChannelManager) : ChannelManager :=
  foldl (room_step ack) cm os.

Inductive action : Type :=
  | OnRegistry (ev : event)
  | OnRooms (o : room_op).

Definition act (ack : string -> string -> promise nat)
    (cm : ChannelManager) (a : action) : ChannelManager :=
  match a with
  | OnRegistry ev => happen cm ev
  | OnRooms o => room_step ack cm o
  end.

Definition perform (ack : string -> string -> promise nat)
    (acts : list action) (cm : ChannelManager) : ChannelManager :=
  foldl (act ack) cm acts.

Fixpoint registry_part (acts : list action) : list event :=
  match acts with
  | [] => []
  | OnRegistry ev :: acts' => ev :: registry_part acts'
  | OnRooms _ :: acts' => registry_part acts'
  end.

Fixpoint rooms_part (acts : list action) : list room_op :=
  match acts with
  | [] => []
  | OnRegistry _ :: acts' => rooms_part acts'
  | OnRooms o :: acts' => o :: rooms_part acts'
  end.

(** The registry side of one manager, with what it has stored on inherited
    values, and the publishing connection of another. *)
Definition combine (registry store : ChannelManager) : ChannelManager :=
  Manager (subscribers registry) (nextId registry) (subConn registry) (pubConn store)
          (builtins registry).

(** ** The plugin (lib/index.js)

    The routes are modelled by what they do to the manager and to the
    streams of the open connections; the replies, which do not depend on the
    manager, are left out. *)

(** What the handlers read of a request. *)
Record request : Type := Request {
  credentials : string;   (* request.auth.credentials.obj *)
  params_room : string;   (* request.params.room *)
  payload : string        (* JSON.stringify(request.payload) *)
}.

(** The line feed of ['\n']. *)
Definition LF : string :=
  String (Ascii.Ascii false true false true false false false false) EmptyString.

(** The stream of a connection: the counter [id] of the handler and the
    chunks written to the [PassThrough]. *)
Record sse : Type := Sse {
  event_id : nat;
  written : list string
}.

(** What the listener of a connection does with a message:
    [channel.write('id: ' + id++ + '\n'); channel.write('data: ' + message + '\n\n')]. *)
Definition sse_write (message : string) (s : sse) : sse :=
  Sse (S (event_id s))
      (written s ++ ["id: " +:+ pretty (event_id s) +:+ LF;
                     "data: " +:+ message +:+ LF +:+ LF]).

(** The listener of a connection, as a callback: it writes and returns.  Its
    writes are applied to the stream of its connection, see [deliver]. *)
Definition sse_listener : callback := fun _ => Returns.

(** A connection to [GET /events]: the channel it listens on, its stream, and
    whether the request is still connected. *)
Record connection : Type := Connection {
  user_channel : string;
  stream : sse;
  connected : bool
}.

(** The plugin: [settings.userMethod], the manager [channels], and the
    connections by the listener id of their subscription. *)
Record server : Type := Server {
  userMethod : request -> string;
  channels : ChannelManager;
  connections : gmap nat connection
}.

(** [internals.defaults.userMethod] *)
Definition default_userMethod (r : request) : string := credentials r.

(** [register]: the user method of the options if there is one, and a new
    manager. *)
Definition register (opts_userMethod : option (request -> string))
    (store : gmap string (gset string)) : server :=
  Server (default default_userMethod opts_userMethod) (create store) ∅.

(** The function exposed as [setUserMethod]. *)
Definition setUserMethod (f : request -> string) (sv : server) : server :=
  Server f (channels sv) (connections sv).

(** The handler of [GET /events]. *)
Definition get_events (req : request) (sv : server) : server :=
  let userId := userMethod sv req in
  let subscribed := subscribe userId sse_listener (channels sv) in
  Server (userMethod sv) subscribed.2
         (<[subscribed.1.2 := Connection userId (Sse 0 []) true]> (connections sv)).

(** The ['disconnect'] event of the request of connection [id]:
    [request.once('disconnect', unsubscribe)]. *)
Definition disconnect (id : nat) (sv : server) : server :=
  match connections sv !! id with
  | Some conn =>
      if connected conn then
        Server (userMethod sv)
               (unsubscribe (user_channel conn) id (channels sv))
               (<[id := Connection (user_channel conn) (stream conn) false]> (connections sv))
      else sv
  | None => sv
  end.

(** The handler of [PUT /events/{room}]. *)
Definition put_room (req : request) (sv : server) : server :=
  Server (userMethod sv)
         (enter (params_room req) (userMethod sv req) (channels sv)).2
         (connections sv).

(** The handler of [DELETE /events/{room}]. *)
Definition delete_room (req : request) (sv : server) : server :=
  Server (userMethod sv)
         (leave (params_room req) (userMethod sv req) (channels sv)).2
         (connections sv).

(** The handler of [POST /events/{room}]. *)
Definition post_room (ack : string -> string -> promise nat)
    (req : request) (sv : server) : server :=
  Server (userMethod sv)
         (broadcast ack (params_room req) (payload req) (channels sv)).2
         (connections sv).

(** The methods exposed with [server.expose]. *)
Definition exposed (ack : string -> string -> promise nat)
    (o : room_op) (sv : server) : server :=
  Server (userMethod sv) (room_step ack (channels sv) o) (connections sv).

(** The writes of the listeners that a dispatch called. *)
Definition apply_calls (l : list (nat * string)) (conns : gmap nat connection)
  : gmap nat connection :=
  foldl (fun conns call =>
           alter (fun conn => Connection (user_channel conn)
                                         (sse_write call.2 (stream conn))
                                         (connected conn))
                 call.1 conns) conns l.

(** A message of the broker arrives on the subscription connection. *)
Definition deliver (channel message : string) (sv : server) : server :=
  let d := on_message channel message (channels sv) in
  Server (userMethod sv) (after d) (apply_calls (calls d) (connections sv)).

(** What happens to the plugin. *)
Inductive happening : Type :=
  | GetEvents (req : request)
  | Disconnect (id : nat)
  | PutRoom (req : request)
  | DeleteRoom (req : request)
  | PostRoom (req : request)
  | SetUserMethod (f : request -> string)
  | Exposed (o : room_op)
  | Message (channel message : string).

Definition serve (ack : string -> string -> promise nat)
    (sv : server) (e : happening) : server :=
  match e with
  | GetEvents req => get_events req sv
  | Disconnect id => disconnect id sv
  | PutRoom req => put_room req sv
  | DeleteRoom req => delete_room req sv
  | PostRoom req => post_room ack req sv
  | SetUserMethod f => setUserMethod f sv
  | Exposed o => exposed ack o sv
  | Message channel message => deliver channel message sv
  end.

Definition serve_all (ack : string -> string -> promise nat)
    (es : list happening) (sv : server) : server :=
  foldl (serve ack) sv es.

(** The chunks of the events numbered from [k] that carry [messages]. *)
Fixpoint frames (k : nat) (messages : list string) : list string :=
  match messages with
  | [] => []
  | m :: messages' =>
      ("id: " +:+ pretty k +:+ LF) :: ("data: " +:+ m +:+ LF +:+ LF)
      :: frames (S k) messages'
  end.

(** The open connections are the listeners of the registry. *)
Definition connections_ok (sv : server) : Prop :=
  tables_ok (channels sv)
  /\ broker_in_step (channels sv)
  /\ (forall u id g, listener (channels sv) u id = Some g ->
        g = sse_listener
        /\ exists s, connections sv !! id = Some (Connection u s true))
  /\ (forall id u s, connections sv !! id = Some (Connection u s true) ->
        listener (channels sv) u id = Some sse_listener)
  /\ (forall id conn, connections sv !! id = Some conn -> id < nextId (channels sv)).

(** The events on a stream are numbered from 0 without gaps. *)
Definition numbered (s : sse) : Prop :=
  exists messages, written s = frames 0 messages /\ event_id s = length messages.

(** A request of user [me] about [party-room], and a plugin with one open
    connection of that user that has received one message. *)
Definition request_of_me : request := Request "me" "party-room" "hello".

Definition one_listener : server :=
  serve_all deaf_to_you [GetEvents request_of_me; Message "me" "hello"] (register None ∅).

(** No connection was ever opened for a user whose channel id is
    [__proto__]: nothing is stored on [Object.prototype]. *)
Definition off_prototype (sv : server) : Prop :=
  forall id conn, connections sv !! id = Some conn -> user_channel conn ≠ "__proto__".

(** A plugin with one open connection, of a user whose channel id is
    [__proto__], and one with a connection of a user whose channel id is
    [toString]. *)
Definition listening_on_prototype : server :=
  serve_all deaf_to_you [GetEvents (Request "__proto__" "party-room" "hello")]
    (register None ∅).

Definition listening_on_toString : server :=
  serve_all deaf_to_you [GetEvents (Request "toString" "party-room" "hello")]
    (register None ∅).

(** ** Listener tables *)

Module ObjFacts.
Import Obj.

Lemma get_set_eq id fn o : get id (set id fn o) = Some fn.
Proof.
  induction o as [|[k g] o IH]; simpl.
  - by rewrite decide_True.
  - repeat case_decide; simpl; try by rewrite decide_True.
    by rewrite decide_False.
Qed.

Lemma get_set_ne id k fn o : id ≠ k -> get id (set k fn o) = get id o.
Proof.
  intros Hne. induction o as [|[j g] o IH]; simpl.
  - by rewrite decide_False.
  - repeat case_decide; simpl; repeat case_decide; subst; try done; lia.
Qed.

Lemma get_delete_eq id o : get id (delete id o) = None.
Proof.
  induction o as [|[k g] o IH]; simpl; [done|].
  case_decide; simpl; [done|]. by rewrite decide_False.
Qed.

Lemma get_delete_ne id k o : id ≠ k -> get id (delete k o) = get id o.
Proof.
  intros Hne. induction o as [|[j g] o IH]; simpl; [done|].
  repeat (case_decide; simpl); subst; try done.
Qed.

Lemma delete_absent id o : get id o = None -> delete id o = o.
Proof.
  induction o as [|[k g] o IH]; simpl; [done|].
  case_decide; [done|]. intros Hn. by rewrite IH.
Qed.

Lemma get_None_keys id o : get id o = None <-> id ∉ keys o.
Proof.
  induction o as [|[k g] o IH]; simpl.
  - split; [intros _; apply not_elem_of_nil | done].
  - rewrite not_elem_of_cons. case_decide; subst.
    + split; [done | by intros [? _]].
    + rewrite IH. split; [by split | by intros [_ ?]].
Qed.

Lemma get_Some_keys id fn o : get id o = Some fn -> id ∈ keys o.
Proof.
  intros Hget. destruct (decide (id ∈ keys o)) as [|Hn]; [done|].
  apply get_None_keys in Hn. congruence.
Qed.

Lemma keys_delete_sub id o : keys (delete id o) ⊆ keys o.
Proof.
  induction o as [|[k g] o IH]; simpl; [done|].
  case_decide; intros x Hx.
  - apply elem_of_cons. right. by apply IH.
  - apply elem_of_cons in Hx as [->|Hx]; apply elem_of_cons; [by left|].
    right. by apply IH.
Qed.

(** Setting a key above all the others appends the entry. *)
Lemma set_above id fn o :
  Forall (fun k => k < id) (keys o) -> set id fn o = o ++ [(id, fn)].
Proof.
  induction o as [|[k g] o IH]; simpl; [done|].
  intros [Hk Ho]%Forall_cons. simpl in Hk.
  rewrite decide_False by lia. rewrite decide_False by lia.
  by rewrite IH.
Qed.

Lemma delete_sorted id o :
  StronglySorted lt (keys o) -> StronglySorted lt (keys (delete id o)).
Proof.
  induction o as [|[k g] o IH]; simpl; [done|].
  intros [Ho Hk]%StronglySorted_inv.
  case_decide; [by apply IH|].
  simpl. constructor; [by apply IH|].
  eapply Forall_forall. intros x Hx.
  eapply Forall_forall in Hk; [exact Hk|].
  by apply (keys_delete_sub id o).
Qed.

Lemma append_sorted id fn o :
  StronglySorted lt (keys o) -> Forall (fun k => k < id) (keys o) ->
  StronglySorted lt (keys (o ++ [(id, fn)])).
Proof.
  induction o as [|[k g] o IH]; simpl.
  - intros _ _. repeat constructor.
  - intros [Ho Hk]%StronglySorted_inv [Hlt Hall]%Forall_cons.
    constructor; [by apply IH|].
    unfold keys. rewrite map_app. apply Forall_app. split; [done|].
    repeat constructor. done.
Qed.

End ObjFacts.

(** ** Invariants of the registry *)

Lemma active_subscribe log c : active (log ++ [SUBSCRIBE c]) = {[c]} ∪ active log.
Proof. unfold active. by rewrite foldl_app. Qed.

Lemma active_unsubscribe log c : active (log ++ [UNSUBSCRIBE c]) = active log ∖ {[c]}.
Proof. unfold active. by rewrite foldl_app. Qed.

Lemma delete_nonempty id (o : Obj.t) :
  length (Obj.keys (Obj.delete id o)) ≠ 0 -> Obj.delete id o ≠ [].
Proof. by destruct (Obj.delete id o). Qed.

(** The three cases of [this.subscribers[channel]]. *)
Lemma subscribers_at_table cm c subs :
  subscribers cm !! c = Some subs -> subscribers_at cm c = Table subs.
Proof. intros Hc. unfold subscribers_at. by rewrite Hc. Qed.

Lemma subscribers_at_inherited cm c v :
  subscribers cm !! c = None -> Object_prototype c = Some v ->
  subscribers_at cm c = Inherited v (props_on cm c).
Proof. intros Hc Hv. unfold subscribers_at. by rewrite Hc, Hv. Qed.

Lemma subscribers_at_undefined cm c :
  subscribers cm !! c = None -> plain c -> subscribers_at cm c = undefined.
Proof. intros Hc Hv. unfold subscribers_at. by rewrite Hc, Hv. Qed.

Ltac cases_at cm c subs Hc v Hv :=
  destruct (subscribers cm !! c) as [subs|] eqn:Hc;
    [ rewrite ?(subscribers_at_table cm c subs Hc)
    | destruct (Object_prototype c) as [v|] eqn:Hv;
      [ rewrite ?(subscribers_at_inherited cm c v Hc Hv)
      | rewrite ?(subscribers_at_undefined cm c Hc Hv) ] ].

Lemma nextId_subscribe c fn cm : nextId (subscribe c fn cm).2 = S (nextId cm).
Proof. unfold subscribe. cbn [snd]. by destruct (subscribers_at cm c). Qed.

Lemma below_next (o : Obj.t) n :
  Forall (fun k => k < n) (Obj.keys o) -> Forall (fun k => k < S n) (Obj.keys o).
Proof. intros H. eapply Forall_impl; [exact H|]. simpl. lia. Qed.

Lemma set_next_ok id fn (o : Obj.t) :
  StronglySorted lt (Obj.keys o) -> Forall (fun k => k < id) (Obj.keys o) ->
  Obj.set id fn o ≠ []
  /\ StronglySorted lt (Obj.keys (Obj.set id fn o))
  /\ Forall (fun k => k < S id) (Obj.keys (Obj.set id fn o)).
Proof.
  intros Hsorted Hbelow. rewrite ObjFacts.set_above by done.
  split; [by destruct o|]. split; [by apply ObjFacts.append_sorted|].
  unfold Obj.keys. rewrite map_app. apply Forall_app. split.
  - by apply below_next.
  - repeat constructor.
Qed.

Lemma delete_ok id n (o : Obj.t) :
  StronglySorted lt (Obj.keys o) -> Forall (fun k => k < n) (Obj.keys o) ->
  StronglySorted lt (Obj.keys (Obj.delete id o))
  /\ Forall (fun k => k < n) (Obj.keys (Obj.delete id o)).
Proof.
  intros Hsorted Hbelow. split; [by apply ObjFacts.delete_sorted|].
  eapply Forall_forall. intros k Hk.
  eapply Forall_forall in Hbelow; [exact Hbelow|].
  by apply (ObjFacts.keys_delete_sub id o).
Qed.

Lemma props_on_ok cm c :
  tables_ok cm ->
  StronglySorted lt (Obj.keys (props_on cm c))
  /\ Forall (fun k => k < nextId cm) (Obj.keys (props_on cm c)).
Proof.
  intros (_ & _ & Hin). unfold props_on.
  destruct (builtins cm !! c) as [props|] eqn:Hp; simpl.
  - by apply (Hin c).
  - split; constructor.
Qed.

Lemma tables_ok_create store : tables_ok (create store).
Proof.
  split; [|split]; intros c subs H; simpl in H; by rewrite lookup_empty in H.
Qed.

Lemma tables_ok_subscribe c fn cm : tables_ok cm -> tables_ok (subscribe c fn cm).2.
Proof.
  intros Hok. pose proof Hok as (Hown & Hplain & Hin).
  unfold subscribe. cbn [snd]. cases_at cm c old Hc v Hv.
  - destruct (Hown c old Hc) as (Hne & Hsorted & Hbelow).
    split; [|split]; cbn [subscribers builtins nextId].
    + intros d subs. destruct (decide (c = d)) as [->|Hcd].
      * rewrite lookup_insert_eq. intros [= <-]. by apply set_next_ok.
      * rewrite lookup_insert_ne by done. intros Hd.
        destruct (Hown d subs Hd) as (? & ? & Hb). split; [done|]. split; [done|].
        by apply below_next.
    + intros d subs. destruct (decide (c = d)) as [->|Hcd].
      * intros _. by apply (Hplain d old).
      * rewrite lookup_insert_ne by done. apply Hplain.
    + intros d props Hd. destruct (Hin d props Hd). split; [done | by apply below_next].
  - destruct (props_on_ok cm c Hok) as [Hsorted Hbelow].
    split; [|split]; cbn [subscribers builtins nextId].
    + intros d subs Hd. destruct (Hown d subs Hd) as (? & ? & Hb).
      split; [done|]. split; [done | by apply below_next].
    + apply Hplain.
    + intros d props. destruct (decide (c = d)) as [->|Hcd].
      * rewrite lookup_insert_eq. intros [= <-]. by apply set_next_ok.
      * rewrite lookup_insert_ne by done. intros Hd.
        destruct (Hin d props Hd). split; [done | by apply below_next].
  - split; [|split]; cbn [subscribers builtins nextId].
    + intros d subs. destruct (decide (c = d)) as [->|Hcd].
      * rewrite lookup_insert_eq. intros [= <-].
        apply (set_next_ok (nextId cm) fn []); constructor.
      * rewrite lookup_insert_ne by done. intros Hd.
        destruct (Hown d subs Hd) as (? & ? & Hb). split; [done|]. split; [done|].
        by apply below_next.
    + intros d subs. destruct (decide (c = d)) as [->|Hcd].
      * intros _. exact Hv.
      * rewrite lookup_insert_ne by done. apply Hplain.
    + intros d props Hd. destruct (Hin d props Hd). split; [done | by apply below_next].
Qed.

Lemma tables_ok_unsubscribe c id cm : tables_ok cm -> tables_ok (unsubscribe c id cm).
Proof.
  intros Hok. pose proof Hok as (Hown & Hplain & Hin).
  unfold unsubscribe. cases_at cm c old Hc v Hv; [| |done].
  - destruct (Hown c old Hc) as (Hne & Hsorted & Hbelow).
    case_decide as Hlen; (split; [|split]); cbn [subscribers builtins nextId]; try done.
    + intros d subs. destruct (decide (c = d)) as [->|Hcd].
      * by rewrite lookup_delete_eq.
      * rewrite lookup_delete_ne by done. apply Hown.
    + intros d subs. destruct (decide (c = d)) as [->|Hcd].
      * by rewrite lookup_delete_eq.
      * rewrite lookup_delete_ne by done. apply Hplain.
    + intros d subs. destruct (decide (c = d)) as [->|Hcd].
      * rewrite lookup_insert_eq. intros [= <-].
        split; [by apply delete_nonempty | by apply delete_ok].
      * rewrite lookup_insert_ne by done. apply Hown.
    + intros d subs. destruct (decide (c = d)) as [->|Hcd].
      * intros _. by apply (Hplain d old).
      * rewrite lookup_insert_ne by done. apply Hplain.
  - destruct (props_on_ok cm c Hok) as [Hsorted Hbelow].
    assert (Hnew : forall d props,
              <[c:=Obj.delete id (props_on cm c)]> (builtins cm) !! d = Some props ->
              StronglySorted lt (Obj.keys props)
              /\ Forall (fun k => k < nextId cm) (Obj.keys props)).
    { intros d props. destruct (decide (c = d)) as [->|Hcd].
      - rewrite lookup_insert_eq. intros [= <-]. by apply delete_ok.
      - rewrite lookup_insert_ne by done. apply Hin. }
    case_decide as Hlen; (split; [|split]); cbn [subscribers builtins nextId]; try done.
    + intros d subs. destruct (decide (c = d)) as [->|Hcd].
      * by rewrite lookup_delete_eq.
      * rewrite lookup_delete_ne by done. apply Hown.
    + intros d subs. destruct (decide (c = d)) as [->|Hcd].
      * by rewrite lookup_delete_eq.
      * rewrite lookup_delete_ne by done. apply Hplain.
Qed.

Lemma tables_ok_remove_entry c cm : tables_ok cm -> tables_ok (remove_entry c cm).
Proof.
  intros (Hown & Hplain & Hin). split; [|split]; cbn [remove_entry subscribers builtins nextId];
    [| |done]; intros d subs; (destruct (decide (c = d)) as [->|Hcd];
      [by rewrite lookup_delete_eq | rewrite lookup_delete_ne by done]).
  - apply Hown.
  - apply Hplain.
Qed.

Lemma tables_ok_step cm o : tables_ok cm -> tables_ok (step cm o).
Proof.
  destruct o; simpl; [apply tables_ok_subscribe | apply tables_ok_unsubscribe].
Qed.

Lemma tables_ok_happen cm ev : tables_ok cm -> tables_ok (happen cm ev).
Proof.
  destruct ev; simpl; [apply tables_ok_step | apply tables_ok_remove_entry].
Qed.

Lemma tables_ok_run ops cm : tables_ok cm -> tables_ok (run ops cm).
Proof.
  revert cm. induction ops as [|o ops IH]; intros cm Hok; simpl; [done|].
  by apply IH, tables_ok_step.
Qed.

Lemma tables_ok_play evs cm : tables_ok cm -> tables_ok (play evs cm).
Proof.
  revert cm. induction evs as [|ev evs IH]; intros cm Hok; simpl; [done|].
  by apply IH, tables_ok_happen.
Qed.

Lemma broker_in_step_create store : broker_in_step (create store).
Proof.
  intros c. simpl. rewrite lookup_empty. split.
  - by intros [? ?].
  - intros H. by apply not_elem_of_empty in H.
Qed.

Lemma broker_in_step_subscribe c fn cm :
  broker_in_step cm -> broker_in_step (subscribe c fn cm).2.
Proof.
  intros Hb d. unfold subscribe. cbn [snd]. cases_at cm c old Hc v Hv;
    cbn [subscribers subConn].
  - rewrite <- (Hb d). destruct (decide (c = d)) as [->|Hcd].
    + rewrite lookup_insert_eq, Hc. split; eauto.
    + by rewrite lookup_insert_ne.
  - apply Hb.
  - rewrite active_subscribe, elem_of_union, elem_of_singleton, <- (Hb d).
    destruct (decide (c = d)) as [->|Hcd].
    + rewrite lookup_insert_eq. split; eauto.
    + rewrite lookup_insert_ne by done. split; [by right|].
      by intros [->|?].
Qed.

Lemma broker_in_step_unsubscribe c id cm :
  broker_in_step cm -> broker_in_step (unsubscribe c id cm).
Proof.
  intros Hb d. unfold unsubscribe. cases_at cm c old Hc v Hv; [| |by apply Hb].
  - case_decide as Hlen; cbn [subscribers subConn].
    + rewrite active_unsubscribe, elem_of_difference, elem_of_singleton, <- (Hb d).
      destruct (decide (c = d)) as [->|Hcd].
      * rewrite lookup_delete_eq. split; [by intros [? ?] | by intros [_ ?]].
      * rewrite lookup_delete_ne by done. split; [by split | by intros [? _]].
    + rewrite <- (Hb d). destruct (decide (c = d)) as [->|Hcd].
      * rewrite lookup_insert_eq, Hc. split; eauto.
      * by rewrite lookup_insert_ne.
  - case_decide as Hlen; cbn [subscribers subConn]; [|by apply Hb].
    rewrite active_unsubscribe, elem_of_difference, elem_of_singleton, <- (Hb d).
    destruct (decide (c = d)) as [->|Hcd].
    + rewrite lookup_delete_eq. split; [by intros [? ?] | by intros [_ ?]].
    + rewrite lookup_delete_ne by done. split; [by split | by intros [? _]].
Qed.

Lemma broker_in_step_run ops cm : broker_in_step cm -> broker_in_step (run ops cm).
Proof.
  revert cm. induction ops as [|o ops IH]; intros cm Hb; simpl; [done|].
  apply IH. destruct o; simpl;
    [by apply broker_in_step_subscribe | by apply broker_in_step_unsubscribe].
Qed.

(** ** The registry and the broker subscriptions *)

Lemma entry_has_listener cm c :
  tables_ok cm -> is_Some (subscribers cm !! c) ->
  exists id fn, listener cm c id = Some fn.
Proof.
  intros (Hown & _ & _) [subs Hsubs]. destruct (Hown c subs Hsubs) as (Hne & _ & _).
  destruct subs as [|[k g] subs]; [done|].
  exists k, g. unfold listener. rewrite (subscribers_at_table cm c _ Hsubs).
  simpl. by rewrite decide_True.
Qed.

Lemma subscribe_first c fn cm :
  subscribers cm !! c = None -> plain c ->
  is_Some (subscribers (subscribe c fn cm).2 !! c)
  /\ subConn (subscribe c fn cm).2 = subConn cm ++ [SUBSCRIBE c].
Proof.
  intros Hc Hplain. unfold subscribe. rewrite (subscribers_at_undefined cm c Hc Hplain).
  simpl. rewrite lookup_insert_eq. eauto.
Qed.

Lemma subscribe_again c fn cm :
  is_Some (subscribers cm !! c) -> subConn (subscribe c fn cm).2 = subConn cm.
Proof.
  intros [subs Hsubs]. unfold subscribe. by rewrite (subscribers_at_table cm c subs Hsubs).
Qed.

Lemma unsubscribe_last c id subs cm :
  subscribers cm !! c = Some subs -> Obj.keys subs = [id] ->
  subscribers (unsubscribe c id cm) !! c = None
  /\ subConn (unsubscribe c id cm) = subConn cm ++ [UNSUBSCRIBE c].
Proof.
  intros Hc Hkeys. unfold unsubscribe. rewrite (subscribers_at_table cm c subs Hc).
  destruct subs as [|[k g] [|? ?]]; try done.
  injection Hkeys as ->. simpl.
  destruct (decide (id = id)); [simpl | done].
  by rewrite lookup_delete_eq.
Qed.

Lemma delete_keeps_others id id' (o : Obj.t) :
  id' ∈ Obj.keys o -> id' ≠ id -> length (Obj.keys (Obj.delete id o)) ≠ 0.
Proof.
  intros Hin Hne Hlen.
  assert (Hget : Obj.get id' (Obj.delete id o) = None).
  { destruct (Obj.delete id o); [done | discriminate Hlen]. }
  rewrite ObjFacts.get_delete_ne in Hget by done.
  by apply ObjFacts.get_None_keys in Hget.
Qed.

Lemma unsubscribe_one_of_several c id id' subs cm :
  subscribers cm !! c = Some subs -> id' ∈ Obj.keys subs -> id' ≠ id ->
  is_Some (subscribers (unsubscribe c id cm) !! c)
  /\ subConn (unsubscribe c id cm) = subConn cm.
Proof.
  intros Hc Hin Hne. unfold unsubscribe. rewrite (subscribers_at_table cm c subs Hc).
  rewrite decide_False by by eapply delete_keeps_others.
  simpl. rewrite lookup_insert_eq. eauto.
Qed.

(** C1, where the code departs from it: [constructor] names a member of
    [Object.prototype], so the first [subscribe] on it finds a truthy value,
    creates no registry entry and sends no SUBSCRIBE; the listener ends up on
    the inherited function.  [toString] fares the same.  Removing that
    listener then sends an UNSUBSCRIBE for a channel that was never
    subscribed. *)
Theorem inherited_channel_is_never_subscribed :
  let cm := (subscribe "constructor" quiet (create ∅)).2 in
  (subscribers cm !! "constructor" = None
   /\ subConn cm = []
   /\ listener cm "constructor" 0 = Some quiet
   /\ subConn (unsubscribe "constructor" 0 cm) = [UNSUBSCRIBE "constructor"])
  /\ subscribers (subscribe "toString" quiet (create ∅)).2 !! "toString" = None
  /\ subConn (subscribe "toString" quiet (create ∅)).2 = [].
Proof. repeat split; reflexivity. Qed.

(** X20: the registry and the broker subscriptions agree.  After every sequence of [subscribe] and
    [unsubscribe] calls on a new manager, the registry has a key for channel
    [c] if and only if the broker subscription for [c] is active, and then [c]
    has at least one registered listener.  A [subscribe] on a channel without
    an entry whose id names no member of [Object.prototype], while nothing is
    stored on [Object.prototype], creates the entry and sends SUBSCRIBE, a
    [subscribe] on a channel with an entry sends
    nothing; removing the last listener of [c] deletes the entry and sends
    UNSUBSCRIBE, removing one of several keeps the entry and sends nothing. *)
Theorem registry_matches_broker (store : gmap string (gset string)) (ops : list op) (c : string) :
  let cm := run ops (create store) in
  (is_Some (subscribers cm !! c) <-> c ∈ active (subConn cm))
  /\ (is_Some (subscribers cm !! c) ->
      plain c /\ exists id fn, listener cm c id = Some fn)
  /\ (forall fn, subscribers cm !! c = None -> plain c -> unpolluted cm ->
        is_Some (subscribers (subscribe c fn cm).2 !! c)
        /\ subConn (subscribe c fn cm).2 = subConn cm ++ [SUBSCRIBE c])
  /\ (forall fn, is_Some (subscribers cm !! c) ->
        subConn (subscribe c fn cm).2 = subConn cm)
  /\ (forall id subs, subscribers cm !! c = Some subs -> Obj.keys subs = [id] ->
        subscribers (unsubscribe c id cm) !! c = None
        /\ subConn (unsubscribe c id cm) = subConn cm ++ [UNSUBSCRIBE c])
  /\ (forall id id' subs, subscribers cm !! c = Some subs ->
        id' ∈ Obj.keys subs -> id' ≠ id ->
        is_Some (subscribers (unsubscribe c id cm) !! c)
        /\ subConn (unsubscribe c id cm) = subConn cm).
Proof.
  intros cm.
  assert (Hok : tables_ok cm) by apply tables_ok_run, tables_ok_create.
  assert (Hb : broker_in_step cm) by apply broker_in_step_run, broker_in_step_create.
  split; [apply Hb|]. split.
  - intros Hsome. split; [|by apply entry_has_listener].
    destruct Hsome as [subs Hsubs]. by apply (proj1 (proj2 Hok) c subs).
  - split; [intros fn Hc Hplain _; by apply subscribe_first|].
    split; [intros fn; apply subscribe_again|].
    split; [intros id subs; apply unsubscribe_last|].
    intros id id' subs. apply unsubscribe_one_of_several.
Qed.

Lemma registry_matches_broker_witness :
  let cm := run [Subscribe "me" quiet; Subscribe "me" faulty; Unsubscribe "me" 0]
              (create ∅) in
  (subscribers cm !! "me" = Some [(1, faulty)] /\ subConn cm = [SUBSCRIBE "me"])
  /\ subscribers (unsubscribe "me" 1 cm) !! "me" = None
  /\ subConn (unsubscribe "me" 1 cm) = subConn cm ++ [UNSUBSCRIBE "me"].
Proof.
  intros cm.
  destruct (registry_matches_broker ∅
              [Subscribe "me" quiet; Subscribe "me" faulty; Unsubscribe "me" 0] "me")
    as (_ & _ & _ & _ & Hlast & _).
  split; [split; reflexivity|].
  apply (Hlast 1 [(1, faulty)]); reflexivity.
Defined.

(** ** Dispatch *)

Lemma forEach_returns (subs : Obj.t) (m : string) :
  Forall (fun kv => kv.2 m = Returns) subs ->
  forEach subs m = (map (fun kv => (kv.1, m)) subs, Returns).
Proof.
  induction subs as [|[k g] subs IH]; simpl; [done|].
  intros [Hg Hrest]%Forall_cons. simpl in Hg. rewrite Hg, IH by done. done.
Qed.

Lemma forEach_throws (pre : Obj.t) (id : nat) (fn : callback) (post : Obj.t)
    (m e : string) :
  Forall (fun kv => kv.2 m = Returns) pre -> fn m = Throws e ->
  forEach (pre ++ (id, fn) :: post) m
  = (map (fun kv => (kv.1, m)) pre ++ [(id, m)], Throws e).
Proof.
  induction pre as [|[k g] pre IH]; simpl.
  - intros _ Hfn. by rewrite Hfn.
  - intros [Hg Hrest]%Forall_cons Hfn. simpl in Hg. rewrite Hg, IH by done. done.
Qed.

Lemma forEach_calls (subs : Obj.t) (m : string) (call : nat * string) :
  call ∈ (forEach subs m).1 -> call.1 ∈ Obj.keys subs /\ call.2 = m.
Proof.
  induction subs as [|[k g] subs IH]; simpl.
  - by intros ?%elem_of_nil.
  - destruct (g m).
    + destruct (forEach subs m) as [l c]. simpl in *.
      intros [->|Hin]%elem_of_cons; simpl.
      * split; [apply elem_of_cons; by left | done].
      * destruct (IH Hin). split; [apply elem_of_cons; by right | done].
    + simpl. intros ->%list_elem_of_singleton. simpl.
      split; [apply elem_of_cons; by left | done].
Qed.

Lemma calls_to_none id (l : list (nat * string)) :
  (forall call, call ∈ l -> call.1 ≠ id) -> calls_to id l = [].
Proof.
  unfold calls_to. induction l as [|x l IH]; intros Hall; [done|].
  rewrite filter_cons_False.
  - apply IH. intros call Hin. apply Hall, elem_of_cons. by right.
  - apply Hall, elem_of_cons. by left.
Qed.

Lemma forEach_once (subs : Obj.t) (id : nat) (fn : callback) (m : string) :
  StronglySorted lt (Obj.keys subs) ->
  Obj.get id subs = Some fn ->
  (forall j g, j < id -> Obj.get j subs = Some g -> g m = Returns) ->
  calls_to id (forEach subs m).1 = [(id, m)].
Proof.
  induction subs as [|[k g] subs IH]; simpl; [done|].
  intros [Hsorted Hk]%StronglySorted_inv Hget Hbefore.
  case_decide as Hkid.
  - subst k. clear IH Hget.
    assert (Hrest : calls_to id (forEach subs m).1 = []).
    { apply calls_to_none. intros call [Hin _]%forEach_calls.
      eapply Forall_forall in Hk; [|exact Hin]. lia. }
    destruct (g m).
    + destruct (forEach subs m) as [l c]. simpl in *.
      unfold calls_to. rewrite filter_cons_True by done.
      unfold calls_to in Hrest. by rewrite Hrest.
    + simpl. unfold calls_to. by rewrite filter_cons_True.
  - assert (Hlt : k < id).
    { apply ObjFacts.get_Some_keys in Hget.
      eapply Forall_forall in Hk; [|exact Hget]. done. }
    assert (Hg : g m = Returns).
    { apply (Hbefore k g Hlt). by rewrite decide_True. }
    rewrite Hg. specialize (IH Hsorted Hget).
    destruct (forEach subs m) as [l c]. simpl in *.
    unfold calls_to. rewrite filter_cons_False by done.
    apply IH. intros j g' Hj Hgj. apply (Hbefore j g' Hj).
    case_decide as Hkj; [|done]. subst j.
    apply ObjFacts.get_Some_keys in Hgj.
    eapply Forall_forall in Hk; [|exact Hgj]. lia.
Qed.

Lemma at_index_None (own proto : Obj.t) id :
  Obj.get id own = None -> Obj.get id proto = None -> at_index own proto id = None.
Proof. intros Hown Hproto. unfold at_index. by rewrite Hown. Qed.

Lemma arrayEach_calls indices (own proto : Obj.t) (m : string) (call : nat * string) :
  call ∈ (arrayEach indices own proto m).1 ->
  is_Some (at_index own proto call.1) /\ call.2 = m.
Proof.
  induction indices as [|i indices IH]; simpl.
  - by intros ?%elem_of_nil.
  - destruct (at_index own proto i) as [g|] eqn:Hi; [|by intros ?%elem_of_nil].
    destruct (g m).
    + destruct (arrayEach indices own proto m) as [l c]. simpl in *.
      intros [->|Hin]%elem_of_cons; simpl; [by rewrite Hi | by apply IH].
    + simpl. intros ->%list_elem_of_singleton. simpl. by rewrite Hi.
Qed.

(** ** Listeners across operations *)

Lemma tables_ok_unshadowed cm c : tables_ok cm -> is_Some (subscribers cm !! c) -> plain c.
Proof. intros (_ & Hplain & _) [subs Hsubs]. by apply (Hplain c subs). Qed.

Lemma listener_below cm c id fn :
  tables_ok cm -> listener cm c id = Some fn -> id < nextId cm.
Proof.
  unfold listener. intros Hok Hl. pose proof Hok as (Hown & _ & _).
  cases_at cm c subs Hc v Hv.
  - rewrite (subscribers_at_table cm c subs Hc) in Hl.
    destruct (Hown c subs Hc) as (_ & _ & Hbelow).
    apply ObjFacts.get_Some_keys in Hl.
    eapply Forall_forall in Hbelow; [|exact Hl]. done.
  - rewrite (subscribers_at_inherited cm c v Hc Hv) in Hl.
    destruct (props_on_ok cm c Hok) as [_ Hbelow].
    apply ObjFacts.get_Some_keys in Hl.
    eapply Forall_forall in Hbelow; [|exact Hl]. done.
  - by rewrite (subscribers_at_undefined cm c Hc Hv) in Hl.
Qed.

Lemma props_on_insert cm c d (o : Obj.t) subs n conn pub :
  props_on (Manager subs n conn pub (<[c := o]> (builtins cm))) d
  = if decide (c = d) then o else props_on cm d.
Proof.
  unfold props_on. cbn [builtins]. case_decide as Hcd.
  - subst d. by rewrite lookup_insert_eq.
  - by rewrite lookup_insert_ne.
Qed.

Lemma listener_subscribe_new c fn cm :
  listener (subscribe c fn cm).2 c (nextId cm) = Some fn.
Proof.
  unfold listener at 1. unfold subscribe. cbn [snd].
  destruct (subscribers cm !! c) as [subs|] eqn:Hc.
  - rewrite (subscribers_at_table cm c subs Hc).
    unfold subscribers_at. cbn [subscribers]. rewrite lookup_insert_eq.
    apply ObjFacts.get_set_eq.
  - destruct (Object_prototype c) as [v|] eqn:Hv.
    + rewrite (subscribers_at_inherited cm c v Hc Hv).
      unfold subscribers_at. cbn [subscribers]. rewrite Hc, Hv.
      rewrite props_on_insert, decide_True by done.
      apply ObjFacts.get_set_eq.
    + rewrite (subscribers_at_undefined cm c Hc Hv).
      unfold subscribers_at. cbn [subscribers]. rewrite lookup_insert_eq.
      apply (ObjFacts.get_set_eq (nextId cm) fn []).
Qed.

Lemma listener_subscribe_old c fn cm d id :
  id ≠ nextId cm ->
  listener (subscribe c fn cm).2 d id = listener cm d id.
Proof.
  intros Hne. unfold listener at 1. unfold subscribe. cbn [snd].
  destruct (subscribers cm !! c) as [subs|] eqn:Hc.
  - rewrite (subscribers_at_table cm c subs Hc).
    unfold listener, subscribers_at. cbn [subscribers].
    destruct (decide (c = d)) as [->|Hcd].
    + rewrite lookup_insert_eq, Hc. by apply ObjFacts.get_set_ne.
    + by rewrite lookup_insert_ne.
  - destruct (Object_prototype c) as [v|] eqn:Hv.
    + rewrite (subscribers_at_inherited cm c v Hc Hv).
      unfold listener, subscribers_at. cbn [subscribers].
      rewrite props_on_insert.
      destruct (subscribers cm !! d) as [subs|] eqn:Hd; [done|].
      destruct (Object_prototype d) as [w|] eqn:Hw; [|done].
      case_decide as Hcd; [|done]. subst d. by apply ObjFacts.get_set_ne.
    + rewrite (subscribers_at_undefined cm c Hc Hv).
      unfold listener, subscribers_at. cbn [subscribers].
      destruct (decide (c = d)) as [->|Hcd].
      * rewrite lookup_insert_eq, Hc, Hv.
        rewrite (ObjFacts.get_set_ne id (nextId cm) fn []) by done. done.
      * by rewrite lookup_insert_ne.
Qed.

Lemma listener_unsubscribe_same c id cm :
  unshadowed_at cm c -> listener (unsubscribe c id cm) c id = None.
Proof.
  intros Hplain. unfold listener at 1. unfold unsubscribe.
  destruct (subscribers cm !! c) as [subs|] eqn:Hc.
  - rewrite (subscribers_at_table cm c subs Hc).
    assert (Hv : plain c) by (apply Hplain; eauto).
    case_decide; unfold subscribers_at; cbn [subscribers].
    + by rewrite lookup_delete_eq, Hv.
    + rewrite lookup_insert_eq. apply ObjFacts.get_delete_eq.
  - destruct (Object_prototype c) as [v|] eqn:Hv.
    + rewrite (subscribers_at_inherited cm c v Hc Hv).
      case_decide; unfold subscribers_at; cbn [subscribers];
        rewrite ?lookup_delete_eq, ?Hc, Hv, props_on_insert, decide_True by done;
        apply ObjFacts.get_delete_eq.
    + rewrite (subscribers_at_undefined cm c Hc Hv).
      by rewrite (subscribers_at_undefined cm c Hc Hv).
Qed.

Lemma listener_unsubscribe_other c id cm d j :
  unshadowed_at cm c -> (c, id) ≠ (d, j) ->
  listener (unsubscribe c id cm) d j = listener cm d j.
Proof.
  intros Hplain Hne. unfold listener at 1. unfold unsubscribe.
  destruct (subscribers cm !! c) as [subs|] eqn:Hc.
  - rewrite (subscribers_at_table cm c subs Hc).
    assert (Hv : plain c) by (apply Hplain; eauto).
    destruct (decide (c = d)) as [->|Hcd].
    + assert (Hj : j ≠ id) by congruence.
      unfold listener. rewrite (subscribers_at_table cm d subs Hc).
      case_decide as Hlen; unfold subscribers_at; cbn [subscribers].
      * rewrite lookup_delete_eq, Hv.
        rewrite <- (ObjFacts.get_delete_ne j id subs) by done.
        by destruct (Obj.delete id subs).
      * rewrite lookup_insert_eq. by apply ObjFacts.get_delete_ne.
    + unfold listener.
      case_decide; unfold subscribers_at; cbn [subscribers];
        [by rewrite lookup_delete_ne | by rewrite lookup_insert_ne].
  - destruct (Object_prototype c) as [v|] eqn:Hv.
    + rewrite (subscribers_at_inherited cm c v Hc Hv).
      assert (Hsame : delete c (subscribers cm) !! d = subscribers cm !! d).
      { destruct (decide (c = d)) as [->|Hcd].
        - by rewrite lookup_delete_eq, Hc.
        - by rewrite lookup_delete_ne. }
      unfold listener.
      case_decide; unfold subscribers_at; cbn [subscribers];
        rewrite ?Hsame; rewrite props_on_insert;
        (destruct (subscribers cm !! d) as [subs|] eqn:Hd; [done|]);
        (destruct (Object_prototype d) as [w|] eqn:Hw; [|done]);
        (case_decide as Hcd; [|done]); subst d;
        apply ObjFacts.get_delete_ne; congruence.
    + by rewrite (subscribers_at_undefined cm c Hc Hv).
Qed.

Lemma listener_remove_entry_other d cm c id :
  d ≠ c -> listener (remove_entry d cm) c id = listener cm c id.
Proof.
  intros Hdc. unfold listener, subscribers_at, remove_entry, props_on.
  cbn [subscribers builtins]. by rewrite lookup_delete_ne.
Qed.

Lemma listener_persists_step cm o c id fn :
  tables_ok cm -> listener cm c id = Some fn -> o ≠ Unsubscribe c id ->
  listener (step cm o) c id = Some fn.
Proof.
  intros Hok Hl Hne. destruct o as [d g|d j]; cbn [step].
  - rewrite listener_subscribe_old; [done|].
    apply (listener_below _ _ _ _ Hok) in Hl. lia.
  - rewrite listener_unsubscribe_other; [done | | congruence].
    intros Hsome. by apply (tables_ok_unshadowed cm d).
Qed.

Lemma listener_persists_play evs cm c id fn :
  tables_ok cm -> listener cm c id = Some fn ->
  Call (Unsubscribe c id) ∉ evs -> Removed c ∉ evs ->
  listener (play evs cm) c id = Some fn.
Proof.
  revert cm. induction evs as [|ev evs IH]; intros cm Hok Hl Hnot Hkept; simpl; [done|].
  apply not_elem_of_cons in Hnot as [Hev Hnot].
  apply not_elem_of_cons in Hkept as [Hev' Hkept].
  apply IH; [by apply tables_ok_happen | | done | done].
  destruct ev as [o|d]; cbn [happen].
  - apply listener_persists_step; [done | done | congruence].
  - rewrite listener_remove_entry_other; [done | congruence].
Qed.

(** ** Delivery of broker messages *)

(** C2, as the code has it: what a listener throws is not caught.  When the
    listener [id] throws and every listener enumerated before it returns, the
    calls made are those listeners and [id], in order, and no listener
    enumerated after [id] is called; the error leaves the message handler; the
    manager, and with it the registry, is left as it was. *)
Theorem dispatch_stops_at_first_throw
    (cm : ChannelManager) (c m : string) (pre post : Obj.t)
    (id : nat) (fn : callback) (e : string) :
  subscribers cm !! c = Some (pre ++ (id, fn) :: post) ->
  Forall (fun kv => kv.2 m = Returns) pre ->
  fn m = Throws e ->
  calls (on_message c m cm) = map (fun kv => (kv.1, m)) pre ++ [(id, m)]
  /\ outcome (on_message c m cm) = Throws e
  /\ after (on_message c m cm) = cm.
Proof.
  intros Hc Hpre Hfn. unfold on_message.
  rewrite (subscribers_at_table cm c _ Hc).
  by rewrite (forEach_throws pre id fn post m e Hpre Hfn).
Qed.

Lemma dispatch_stops_at_first_throw_witness :
  calls (on_message "me" "hello" faulty_then_quiet) = [(0, "hello")]
  /\ outcome (on_message "me" "hello" faulty_then_quiet) = Throws "boom"
  /\ after (on_message "me" "hello" faulty_then_quiet) = faulty_then_quiet.
Proof.
  apply (dispatch_stops_at_first_throw faulty_then_quiet "me" "hello"
           [] [(1, quiet)] 0 faulty "boom").
  - reflexivity.
  - constructor.
  - reflexivity.
Defined.

(** C2 fails as stated: with two listeners on [me] of which the first throws,
    the second is never called and the error leaves the handler. *)
Lemma throwing_listener_is_not_isolated :
  listener faulty_then_quiet "me" 0 = Some faulty
  /\ listener faulty_then_quiet "me" 1 = Some quiet
  /\ faulty "hello" = Throws "boom"
  /\ calls_to 1 (calls (on_message "me" "hello" faulty_then_quiet)) = []
  /\ outcome (on_message "me" "hello" faulty_then_quiet) = Throws "boom"
  /\ ~ ((forall id fn, listener faulty_then_quiet "me" id = Some fn ->
           (id, "hello") ∈ calls (on_message "me" "hello" faulty_then_quiet))
        /\ outcome (on_message "me" "hello" faulty_then_quiet) = Returns).
Proof.
  repeat split; try reflexivity.
  intros [_ Hout]. vm_compute in Hout. discriminate Hout.
Qed.


(** X21: while nothing is stored on [Object.prototype], a
    message on a channel that has no registry entry and whose id names no
    member of [Object.prototype] calls no callback, throws nothing and leaves
    the manager, and with it the registry, as it was. *)
Theorem message_without_entry_is_ignored (cm : ChannelManager) (c m : string) :
  subscribers cm !! c = None -> plain c -> unpolluted cm ->
  calls (on_message c m cm) = []
  /\ outcome (on_message c m cm) = Returns
  /\ after (on_message c m cm) = cm.
Proof.
  intros Hc Hplain _. unfold on_message.
  by rewrite (subscribers_at_undefined cm c Hc Hplain).
Qed.

Lemma message_without_entry_is_ignored_witness :
  calls (on_message "you" "hello" faulty_then_quiet) = []
  /\ outcome (on_message "you" "hello" faulty_then_quiet) = Returns
  /\ after (on_message "you" "hello" faulty_then_quiet) = faulty_then_quiet.
Proof.
  apply (message_without_entry_is_ignored faulty_then_quiet "you" "hello");
    reflexivity.
Defined.

(** C4, as the code has it: after [subscribe(c, f)] on a channel whose id
    names no member of [Object.prototype], whatever happened to the registry
    before, and whatever happens afterwards short of invoking the handle of
    [f] or removing the entry of [c] by other means, a message [m] on [c]
    calls [f] exactly once, with [m], provided that the listeners of [c] with
    a smaller id return when called with [m].  Nothing before or afterwards
    uses the channel id [__proto__], which would store listeners on
    [Object.prototype] itself. *)
Theorem subscribed_listener_called_once
    (store : gmap string (gset string)) (before later : list event)
    (c : string) (f : callback) (m : string) :
  let cm1 := play before (create store) in
  let h := (subscribe c f cm1).1 in
  let cm := play later (subscribe c f cm1).2 in
  plain c -> spares_prototype before -> spares_prototype later ->
  Call (Unsubscribe h.1 h.2) ∉ later ->
  Removed c ∉ later ->
  (forall j g, j < h.2 -> listener cm c j = Some g -> g m = Returns) ->
  calls_to h.2 (calls (on_message c m cm)) = [(h.2, m)].
Proof.
  intros cm1 h cm Hplain _ _ Hnot Hkept Hbefore.
  assert (Hok1 : tables_ok cm1) by apply tables_ok_play, tables_ok_create.
  assert (Hok : tables_ok cm) by by apply tables_ok_play, tables_ok_subscribe.
  assert (Hl : listener cm c h.2 = Some f).
  { apply listener_persists_play;
      [by apply tables_ok_subscribe | | exact Hnot | exact Hkept].
    apply listener_subscribe_new. }
  clearbody cm. clear Hnot Hkept.
  unfold listener in Hl, Hbefore. unfold on_message.
  destruct (subscribers cm !! c) as [subs|] eqn:Hc.
  - rewrite (subscribers_at_table cm c subs Hc) in *.
    destruct Hok as (Hown & _ & _).
    destruct (Hown c subs Hc) as (_ & Hsorted & _).
    pose proof (forEach_once subs h.2 f m Hsorted Hl Hbefore) as Honce.
    by destruct (forEach subs m).
  - by rewrite (subscribers_at_undefined cm c Hc Hplain) in Hl.
Qed.

Lemma subscribed_listener_called_once_witness :
  calls_to 1 (calls (on_message "me" "hello"
                       (play [Call (Subscribe "toString" quiet);
                              Call (Unsubscribe "you" 2); Removed "you"]
                          (subscribe "me" faulty
                             (play [Call (Subscribe "me" quiet)] (create ∅))).2)))
  = [(1, "hello")].
Proof.
  apply (subscribed_listener_called_once ∅ [Call (Subscribe "me" quiet)]
           [Call (Subscribe "toString" quiet); Call (Unsubscribe "you" 2); Removed "you"]
           "me" faulty "hello").
  - reflexivity.
  - repeat constructor; discriminate.
  - repeat constructor; discriminate.
  - vm_compute. intros H. repeat (apply elem_of_cons in H as [H|H]; [discriminate H|]).
    by apply elem_of_nil in H.
  - intros H. repeat (apply elem_of_cons in H as [H|H]; [discriminate H|]).
    by apply elem_of_nil in H.
  - intros j g Hj. assert (j = 0) as -> by (vm_compute in Hj; lia).
    vm_compute. by intros [= <-].
Defined.

(** C4 fails as stated: [quiet] is subscribed to [me] and its handle is never
    invoked, yet a message on [me] does not call it, because the listener
    enumerated before it throws. *)
Lemma listener_after_throw_not_called :
  faulty_then_quiet = (subscribe "me" quiet (run [Subscribe "me" faulty] (create ∅))).2
  /\ (subscribe "me" quiet (run [Subscribe "me" faulty] (create ∅))).1 = ("me", 1)
  /\ calls_to 1 (calls (on_message "me" "hello" faulty_then_quiet)) = [].
Proof. repeat split; reflexivity. Qed.

(** The other provisos are needed too: a listener subscribed to [toString]
    is stored on the inherited function, which a message on [toString] takes
    for an empty array; and a listener whose entry was removed from the
    registry by other means is not called either. *)
Lemma subscribed_listener_can_be_missed :
  calls (on_message "toString" "hello" (subscribe "toString" quiet (create ∅)).2) = []
  /\ calls (on_message "me" "hello"
              (play [Removed "me"] (subscribe "me" quiet (create ∅)).2)) = [].
Proof. split; reflexivity. Qed.

(** ** Stale handles *)

Lemma nextId_unsubscribe c id cm : nextId (unsubscribe c id cm) = nextId cm.
Proof.
  unfold unsubscribe. destruct (subscribers_at cm c); [| |done]; by case_decide.
Qed.

Lemma nextId_happen cm ev : nextId cm <= nextId (happen cm ev).
Proof.
  destruct ev as [[d g|d j]|d]; cbn [happen step];
    [rewrite nextId_subscribe; lia | by rewrite nextId_unsubscribe | done].
Qed.

Lemma nextId_play evs cm : nextId cm <= nextId (play evs cm).
Proof.
  revert cm. induction evs as [|ev evs IH]; intros cm; simpl; [done|].
  etrans; [apply (nextId_happen cm ev) | apply IH].
Qed.

(** Unsubscribing an id that is not registered changes the registry and the
    listeners in no way; on a channel with an entry, or without a truthy
    value, it changes nothing at all. *)
Lemma unsubscribe_absent c id cm :
  tables_ok cm -> listener cm c id = None -> plain c -> unsubscribe c id cm = cm.
Proof.
  unfold listener, unsubscribe. intros (Hown & _ & _) Hl Hplain.
  destruct (subscribers cm !! c) as [subs|] eqn:Hc.
  - rewrite (subscribers_at_table cm c subs Hc) in *.
    destruct (Hown c subs Hc) as (Hne & _ & _).
    rewrite ObjFacts.delete_absent by done.
    rewrite decide_False by by destruct subs.
    rewrite insert_id by done. by destruct cm.
  - by rewrite (subscribers_at_undefined cm c Hc Hplain).
Qed.

Lemma listener_remove_entry d cm c id :
  tables_ok cm -> listener cm c id = None -> listener (remove_entry d cm) c id = None.
Proof.
  intros Hok Hl. destruct (decide (d = c)) as [->|Hdc];
    [|by rewrite listener_remove_entry_other].
  unfold listener in *. unfold subscribers_at in *.
  cbn [remove_entry subscribers]. rewrite lookup_delete_eq.
  destruct (subscribers cm !! c) as [subs|] eqn:Hc; [|exact Hl].
  by rewrite (tables_ok_unshadowed cm c Hok).
Qed.

Lemma unregistered_stays_happen cm ev c id :
  tables_ok cm -> id < nextId cm -> listener cm c id = None ->
  listener (happen cm ev) c id = None.
Proof.
  intros Hok Hid Hl. destruct ev as [[d g|d j]|d]; cbn [happen step].
  - rewrite listener_subscribe_old; [done | lia].
  - assert (Hd : unshadowed_at cm d) by (intros ?; by apply (tables_ok_unshadowed cm d)).
    destruct (decide ((d, j) = (c, id))) as [[= -> ->]|Hne].
    + by apply listener_unsubscribe_same.
    + by rewrite listener_unsubscribe_other.
  - by apply listener_remove_entry.
Qed.

Lemma unregistered_stays_play evs cm c id :
  tables_ok cm -> id < nextId cm -> listener cm c id = None ->
  listener (play evs cm) c id = None.
Proof.
  revert cm. induction evs as [|ev evs IH]; intros cm Hok Hid Hl; simpl; [done|].
  apply IH.
  - by apply tables_ok_happen.
  - pose proof (nextId_happen cm ev). lia.
  - by apply unregistered_stays_happen.
Qed.




(** What C5 does not say: on a channel id that names a member of
    [Object.prototype], a stale handle still sends UNSUBSCRIBE to the broker,
    once more each time it is invoked. *)
Lemma stale_handle_on_inherited_channel_unsubscribes_again :
  (subscribe "toString" quiet (create ∅)).1 = ("toString", 0)
  /\ subConn stale_on_toString = [UNSUBSCRIBE "toString"]
  /\ subscribers (invoke ("toString", 0) stale_on_toString) = subscribers stale_on_toString
  /\ subConn (invoke ("toString", 0) stale_on_toString)
     = [UNSUBSCRIBE "toString"; UNSUBSCRIBE "toString"].
Proof. repeat split; reflexivity. Qed.

(** X22: on a channel whose id names no member of [Object.prototype], a
    handle returned by [subscribe] that has been invoked once is invoked
    again, whatever happened to the registry before, between and after (calls
    of the interface on any channel but [__proto__], entries removed by other
    means): the manager, and with it the registry, the listener ids and the
    commands sent to the broker, is left as it was.  The same holds for any
    handle on such a channel when the channel has no entry in the registry and
    nothing is stored on [Object.prototype]. *)
Theorem stale_handle_changes_nothing
    (store : gmap string (gset string)) (evs1 evs2 evs3 : list event)
    (c : string) (f : callback) :
  let cm1 := play evs1 (create store) in
  let h := (subscribe c f cm1).1 in
  let cm := play evs3 (invoke h (play evs2 (subscribe c f cm1).2)) in
  plain c -> spares_prototype evs1 -> spares_prototype evs2 -> spares_prototype evs3 ->
  invoke h cm = cm
  /\ (forall cm', subscribers cm' !! h.1 = None -> unpolluted cm' -> invoke h cm' = cm').
Proof.
  intros cm1 h cm Hplain _ _ _. split.
  - assert (Hok1 : tables_ok cm1) by apply tables_ok_play, tables_ok_create.
    set (cm2 := play evs2 (subscribe c f cm1).2) in *.
    assert (Hok2 : tables_ok cm2) by by apply tables_ok_play, tables_ok_subscribe.
    assert (Hid2 : h.2 < nextId cm2).
    { pose proof (nextId_play evs2 (subscribe c f cm1).2) as Hle.
      fold cm2 in Hle. rewrite nextId_subscribe in Hle. simpl. lia. }
    unfold invoke. apply unsubscribe_absent; [| |exact Hplain].
    + by apply tables_ok_play, tables_ok_unsubscribe.
    + apply unregistered_stays_play.
      * by apply tables_ok_unsubscribe.
      * unfold invoke. by rewrite nextId_unsubscribe.
      * apply listener_unsubscribe_same.
        intros ?. by apply (tables_ok_unshadowed cm2).
  - intros cm' Hc _. unfold invoke, unsubscribe.
    change (subscribers_at cm' h.1) with (subscribers_at cm' c).
    by rewrite (subscribers_at_undefined cm' c Hc Hplain).
Qed.

Lemma stale_handle_changes_nothing_witness :
  let cm := play [Call (Subscribe "me" faulty)]
              (invoke ("me", 1)
                 (play [Removed "you"; Call (Subscribe "constructor" quiet)]
                    (subscribe "me" quiet
                       (play [Call (Subscribe "me" quiet)] (create ∅))).2)) in
  invoke ("me", 1) cm = cm
  /\ (forall cm', subscribers cm' !! "me" = None -> unpolluted cm' ->
        invoke ("me", 1) cm' = cm').
Proof.
  apply (stale_handle_changes_nothing ∅ [Call (Subscribe "me" quiet)]
           [Removed "you"; Call (Subscribe "constructor" quiet)]
           [Call (Subscribe "me" faulty)] "me" quiet);
    [reflexivity | repeat constructor; discriminate ..].
Defined.

(** ** Room keys *)

Lemma string_length_app (s1 s2 : string) :
  String.length (s1 +:+ s2) = String.length s1 + String.length s2.
Proof.
  induction s1 as [|a s1 IH]; [done|].
  change (S (String.length (s1 +:+ s2)) = S (String.length s1 + String.length s2)).
  by rewrite IH.
Qed.

Lemma string_app_inj_r (s a b : string) : a +:+ s = b +:+ s -> a = b.
Proof.
  revert b. induction a as [|x a IH]; intros [|y b] Heq; [done| | |].
  - apply (f_equal String.length) in Heq.
    change (String y b +:+ s) with (String y (b +:+ s)) in Heq.
    change ("" +:+ s) with s in Heq. simpl in Heq.
    rewrite string_length_app in Heq. lia.
  - apply (f_equal String.length) in Heq.
    change (String x a +:+ s) with (String x (a +:+ s)) in Heq.
    change ("" +:+ s) with s in Heq. simpl in Heq.
    rewrite string_length_app in Heq. lia.
  - change (String x (a +:+ s) = String y (b +:+ s)) in Heq.
    injection Heq as -> Heq. f_equal. by apply IH.
Qed.

Lemma subscribersKey_inj (room room' : string) :
  subscribersKey room' = subscribersKey room -> room' = room.
Proof.
  unfold subscribersKey. intros Heq.
  apply (inj (String.app "room:")) in Heq.
  by apply string_app_inj_r in Heq.
Qed.

(** ** The store seen through the room operations *)

Lemma smembers_of_sadd key c r :
  smembers_of key (sadd key c r).2 = {[c]} ∪ smembers_of key r.
Proof.
  unfold sadd. case_decide as Hin; simpl.
  - apply leibniz_equiv. intros x.
    rewrite elem_of_union, elem_of_singleton. split; [by right|].
    by intros [->|?].
  - unfold smembers_of at 1. simpl. by rewrite lookup_insert_eq.
Qed.

Lemma smembers_of_srem key c r :
  smembers_of key (srem key c r).2 = smembers_of key r ∖ {[c]}.
Proof.
  unfold srem. case_decide as Hin; simpl.
  - unfold smembers_of at 1. simpl. case_decide as Hempty.
    + by rewrite lookup_delete_eq, Hempty.
    + by rewrite lookup_insert_eq.
  - apply leibniz_equiv. intros x.
    rewrite elem_of_difference, elem_of_singleton. split; [|by intros [? _]].
    intros Hx. split; [done|]. by intros ->.
Qed.

Lemma members_reads room cm :
  members room cm
  = (Resolved (elements (smembers_of (subscribersKey room) (pubConn cm))),
     Manager (subscribers cm) (nextId cm) (subConn cm)
       (Redis (sets (pubConn cm)) (sent (pubConn cm) ++ [SMEMBERS (subscribersKey room)]))
       (builtins cm)).
Proof. done. Qed.

Lemma enter_resolved room c cm : resolved (enter room c cm).1 = true.
Proof. unfold enter, ninvoke, sadd. by case_decide. Qed.

Lemma enter_present room c cm :
  c ∈ smembers_of (subscribersKey room) (pubConn cm) ->
  sets (pubConn (enter room c cm).2) = sets (pubConn cm).
Proof. intros Hin. unfold enter, ninvoke, sadd. by rewrite decide_True. Qed.

Lemma member_after_enter room c cm :
  c ∈ smembers_of (subscribersKey room) (pubConn (enter room c cm).2).
Proof.
  unfold enter, ninvoke.
  destruct (sadd (subscribersKey room) c (pubConn cm)) as [p r] eqn:Hsadd. simpl.
  replace r with (sadd (subscribersKey room) c (pubConn cm)).2 by by rewrite Hsadd.
  rewrite smembers_of_sadd. apply elem_of_union. left. by apply elem_of_singleton.
Qed.

(** C7: [enter(r, c)] followed by [leave(r, c)] leaves [c] outside the
    members of [r], and a room that was empty is empty again.  Entering twice
    gives the store that entering once gives; entering a member that is
    already there and leaving one that is not both resolve and leave the store
    as it was. *)
Theorem enter_then_leave (room c : string) (cm : ChannelManager) :
  let key := subscribersKey room in
  let cm' := (leave room c (enter room c cm).2).2 in
  (exists l, (members room cm').1 = Resolved l /\ c ∉ l)
  /\ (smembers_of key (pubConn cm) = ∅ -> (members room cm').1 = Resolved [])
  /\ (resolved (enter room c cm).1 = true
      /\ resolved (enter room c (enter room c cm).2).1 = true
      /\ sets (pubConn (enter room c (enter room c cm).2).2)
         = sets (pubConn (enter room c cm).2))
  /\ (c ∈ smembers_of key (pubConn cm) ->
        resolved (enter room c cm).1 = true
        /\ sets (pubConn (enter room c cm).2) = sets (pubConn cm))
  /\ (c ∉ smembers_of key (pubConn cm) ->
        resolved (leave room c cm).1 = true
        /\ sets (pubConn (leave room c cm).2) = sets (pubConn cm)).
Proof.
  intros key cm'.
  assert (Hafter : smembers_of key (pubConn cm')
                   = ({[c]} ∪ smembers_of key (pubConn cm)) ∖ {[c]}).
  { unfold cm', leave, enter, ninvoke.
    destruct (sadd (subscribersKey room) c (pubConn cm)) as [p1 r1] eqn:H1.
    simpl. destruct (srem (subscribersKey room) c r1) as [p2 r2] eqn:H2. simpl.
    replace r2 with (srem key c r1).2 by (unfold key; by rewrite H2).
    replace r1 with (sadd key c (pubConn cm)).2 by (unfold key; by rewrite H1).
    by rewrite smembers_of_srem, smembers_of_sadd. }
  split; [|split; [|split; [|split]]].
  - eexists. split; [by rewrite members_reads|].
    fold key. rewrite Hafter, elem_of_elements, elem_of_difference, elem_of_singleton.
    by intros [_ ?].
  - intros Hempty. rewrite members_reads. simpl. fold key.
    rewrite Hafter, Hempty. f_equal. apply elements_empty_iff.
    intros x. split; [|by intros ?%not_elem_of_empty].
    rewrite elem_of_difference, elem_of_union, elem_of_singleton.
    intros [[->|Hx] Hne]; [done|]. by apply not_elem_of_empty in Hx.
  - split; [apply enter_resolved|]. split; [apply enter_resolved|].
    apply enter_present, member_after_enter.
  - intros Hin. split; [apply enter_resolved | by apply enter_present].
  - intros Hout. unfold leave, ninvoke, srem. fold key. by rewrite decide_False.
Qed.

Lemma enter_then_leave_witness :
  let cm := (enter "party-room" "you" (create ∅)).2 in
  let cm' := (leave "party-room" "me" (enter "party-room" "me" cm).2).2 in
  (exists l, (members "party-room" cm').1 = Resolved l /\ "me" ∉ l)
  /\ (leave "party-room" "me" cm).1 = Resolved 0
  /\ sets (pubConn (leave "party-room" "me" cm).2) = sets (pubConn cm).
Proof.
  intros cm cm'.
  destruct (enter_then_leave "party-room" "me" cm) as (H1 & _ & _ & _ & H5).
  split; [exact H1|]. split; [reflexivity|].
  apply H5. vm_compute. intros H. discriminate H.
Defined.

(** C8: [close(r)] resolves in every state of the store, also when the room
    is empty or never existed.  Afterwards the store holds no set for [r], as
    for a room that never existed, and [members(r)] yields the empty array; the
    sets of the other rooms are as before, and closing a room that has no set
    changes nothing. *)
Theorem close_deletes_room (room : string) (cm : ChannelManager) :
  let key := subscribersKey room in
  let cm' := (close room cm).2 in
  resolved (close room cm).1 = true
  /\ sets (pubConn cm') !! key = None
  /\ (members room cm').1 = Resolved []
  /\ sets (pubConn cm') = delete key (sets (pubConn cm))
  /\ (forall room', room' ≠ room ->
        sets (pubConn cm') !! subscribersKey room'
        = sets (pubConn cm) !! subscribersKey room')
  /\ (sets (pubConn cm) !! key = None -> sets (pubConn cm') = sets (pubConn cm)).
Proof.
  intros key cm'.
  assert (Hsets : sets (pubConn cm') = delete key (sets (pubConn cm))) by done.
  split; [done|]. split; [rewrite Hsets; apply lookup_delete_eq|].
  split; [|split; [done|split]].
  - rewrite members_reads. cbn [fst]. unfold smembers_of. fold key.
    rewrite Hsets, lookup_delete_eq. simpl. by rewrite elements_empty.
  - intros room' Hne. rewrite Hsets. apply lookup_delete_ne.
    intros Heq. apply Hne. symmetry in Heq. by apply subscribersKey_inj.
  - intros Hnone. rewrite Hsets. by apply delete_id.
Qed.

Lemma close_deletes_room_witness :
  let cm := (enter "party-room" "you" (enter "party-room" "me" (create ∅)).2).2 in
  (close "party-room" cm).1 = Resolved 1
  /\ (members "party-room" (close "party-room" cm).2).1 = Resolved []
  /\ sets (pubConn (close "party-room" (close "party-room" cm).2).2)
     = sets (pubConn (close "party-room" cm).2).
Proof.
  intros cm.
  destruct (close_deletes_room "party-room" cm) as (_ & Hgone & Hempty & _).
  destruct (close_deletes_room "party-room" (close "party-room" cm).2)
    as (_ & _ & _ & _ & _ & Hagain).
  split; [reflexivity|]. split; [exact Hempty|]. apply Hagain, Hgone.
Defined.

(** ** Broadcast *)

Lemma publish_each_spec ack (channels : list string) (m : string) (cm : ChannelManager) :
  publish_each ack channels m cm
  = (map (fun c => ack c m) channels,
     Manager (subscribers cm) (nextId cm) (subConn cm)
       (Redis (sets (pubConn cm))
              (sent (pubConn cm) ++ map (fun c => PUBLISH c m) channels))
       (builtins cm)).
Proof.
  revert cm. induction channels as [|c channels IH]; intros cm; simpl.
  - rewrite app_nil_r. by destruct cm as [? ? ? [] ?].
  - rewrite IH. simpl. by rewrite <- app_assoc.
Qed.

Lemma q_all_resolved {A} (ps : list (promise A)) :
  resolved (q_all ps) = true <-> Forall (fun p => resolved p = true) ps.
Proof.
  induction ps as [|[v|e] ps IH]; simpl.
  - split; [by constructor | done].
  - rewrite Forall_cons, <- IH. destruct (q_all ps); simpl.
    + split; [by split | done].
    + split; [done | by intros [_ ?]].
  - rewrite Forall_cons. simpl. split; [done | by intros [? _]].
Qed.

Lemma broadcast_spec ack (room m : string) (cm : ChannelManager) :
  let channels := elements (smembers_of (subscribersKey room) (pubConn cm)) in
  broadcast ack room m cm
  = (q_all (map (fun c => ack c m) channels),
     Manager (subscribers cm) (nextId cm) (subConn cm)
       (Redis (sets (pubConn cm))
              (sent (pubConn cm)
               ++ SMEMBERS (subscribersKey room) :: map (fun c => PUBLISH c m) channels))
       (builtins cm)).
Proof.
  intros channels. unfold broadcast. rewrite members_reads. unfold then_publish.
  rewrite publish_each_spec. simpl. by rewrite <- app_assoc.
Qed.

Lemma one_publish_each (channels : list string) (m c : string) :
  NoDup channels -> c ∈ channels ->
  filter (fun cmd => cmd = PUBLISH c m) (map (fun d => PUBLISH d m) channels)
  = [PUBLISH c m].
Proof.
  induction channels as [|d channels IH]; intros Hnd Hin; [by apply elem_of_nil in Hin|].
  apply NoDup_cons in Hnd as [Hd Hnd]. simpl.
  destruct (decide (d = c)) as [->|Hdc].
  - rewrite filter_cons_True by done. f_equal.
    clear IH Hin Hnd. induction channels as [|d channels IH]; [done|].
    apply not_elem_of_cons in Hd as [Hcd Hd]. simpl.
    rewrite filter_cons_False by congruence. by apply IH.
  - rewrite filter_cons_False by congruence.
    apply IH; [done|]. by apply elem_of_cons in Hin as [->|Hin].
Qed.

(** C3: [broadcast(r, m)] sends SMEMBERS for the room and then one PUBLISH of
    [m] per member of the room, and nothing else: each member channel gets
    exactly one PUBLISH, whether or not any of them fails, and the store is
    left as it was.  The broadcast resolves if and only if every one of these
    publishes resolves. *)
Theorem broadcast_publishes_to_each_member
    (ack : string -> string -> promise nat) (room m : string) (cm : ChannelManager) :
  let key := subscribersKey room in
  let channels := elements (smembers_of key (pubConn cm)) in
  let issued := map (fun c => PUBLISH c m) channels in
  let b := broadcast ack room m cm in
  sent (pubConn b.2) = sent (pubConn cm) ++ SMEMBERS key :: issued
  /\ (forall c, c ∈ channels <-> c ∈ smembers_of key (pubConn cm))
  /\ (forall c, c ∈ channels ->
        filter (fun cmd => cmd = PUBLISH c m) issued = [PUBLISH c m])
  /\ (resolved b.1 = true <-> forall c, c ∈ channels -> resolved (ack c m) = true)
  /\ sets (pubConn b.2) = sets (pubConn cm).
Proof.
  intros key channels issued b. unfold b. rewrite broadcast_spec. simpl.
  split; [done|]. split; [intros c; apply elem_of_elements|].
  split; [|split; [|done]].
  - intros c. apply one_publish_each, NoDup_elements.
  - rewrite q_all_resolved, Forall_fmap, Forall_forall. done.
Qed.

Lemma broadcast_publishes_to_each_member_witness :
  let channels := elements (smembers_of (subscribersKey "party-room") (pubConn party)) in
  let issued := map (fun c => PUBLISH c "hello") channels in
  let b := broadcast deaf_to_you "party-room" "hello" party in
  (b.1 = Rejected "ECONNRESET" /\ issued = [PUBLISH "me" "hello"; PUBLISH "you" "hello"])
  /\ sent (pubConn b.2)
     = sent (pubConn party) ++ SMEMBERS (subscribersKey "party-room") :: issued
  /\ (forall c, c ∈ channels <-> c ∈ smembers_of (subscribersKey "party-room") (pubConn party))
  /\ (forall c, c ∈ channels ->
        filter (fun cmd => cmd = PUBLISH c "hello") issued = [PUBLISH c "hello"])
  /\ (resolved b.1 = true
      <-> forall c, c ∈ channels -> resolved (deaf_to_you c "hello") = true)
  /\ sets (pubConn b.2) = sets (pubConn party).
Proof.
  split.
  - split; vm_compute; reflexivity.
  - exact (broadcast_publishes_to_each_member deaf_to_you "party-room" "hello" party).
Defined.

(** C10: for a room whose member set is empty or was never created,
    [broadcast(r, m)] resolves, with no result, and sends no PUBLISH: the only
    command sent is the SMEMBERS for the room. *)
Theorem broadcast_to_empty_room
    (ack : string -> string -> promise nat) (room m : string) (cm : ChannelManager) :
  smembers_of (subscribersKey room) (pubConn cm) = ∅ ->
  (broadcast ack room m cm).1 = Resolved []
  /\ sent (pubConn (broadcast ack room m cm).2)
     = sent (pubConn cm) ++ [SMEMBERS (subscribersKey room)].
Proof.
  intros Hempty. rewrite broadcast_spec. simpl.
  by rewrite Hempty, elements_empty.
Qed.

Lemma broadcast_to_empty_room_witness :
  (broadcast deaf_to_you "party-room" "hello" (create ∅)).1 = Resolved []
  /\ sent (pubConn (broadcast deaf_to_you "party-room" "hello" (create ∅)).2)
     = [] ++ [SMEMBERS (subscribersKey "party-room")].
Proof.
  apply (broadcast_to_empty_room deaf_to_you "party-room" "hello" (create ∅)).
  reflexivity.
Defined.

(** C9: the key of a room is [room:], the room id and [:channels]; distinct
    rooms have distinct keys.  [enter], [leave], [members] and [close] each
    send one command, on that key, [members] yields the set stored under it,
    and [broadcast] reads the members with SMEMBERS on that key and otherwise
    only publishes. *)
Theorem room_key_derivation
    (ack : string -> string -> promise nat) (room channel message : string)
    (cm : ChannelManager) :
  let key := subscribersKey room in
  key = "room:" +:+ room +:+ ":channels"
  /\ (forall room', subscribersKey room' = key -> room' = room)
  /\ sent (pubConn (enter room channel cm).2) = sent (pubConn cm) ++ [SADD key channel]
  /\ sent (pubConn (leave room channel cm).2) = sent (pubConn cm) ++ [SREM key channel]
  /\ sent (pubConn (members room cm).2) = sent (pubConn cm) ++ [SMEMBERS key]
  /\ (members room cm).1 = Resolved (elements (smembers_of key (pubConn cm)))
  /\ sent (pubConn (close room cm).2) = sent (pubConn cm) ++ [DEL key]
  /\ (exists rest,
        sent (pubConn (broadcast ack room message cm).2)
        = sent (pubConn cm) ++ SMEMBERS key :: rest
        /\ Forall is_publish rest).
Proof.
  intros key. split; [done|]. split; [intros room'; apply subscribersKey_inj|].
  split; [unfold enter, ninvoke, sadd; by case_decide|].
  split; [unfold leave, ninvoke, srem; by case_decide|].
  split; [done|]. split; [done|]. split; [done|].
  rewrite broadcast_spec. simpl. eexists. split; [done|].
  apply Forall_fmap, Forall_forall. by intros c _.
Qed.

Lemma room_key_derivation_witness :
  subscribersKey "party-room" = "room:party-room:channels"
  /\ (forall room', subscribersKey room' = subscribersKey "party-room" -> room' = "party-room")
  /\ sent (pubConn (enter "party-room" "me" (create ∅)).2)
     = [SADD "room:party-room:channels" "me"].
Proof.
  destruct (room_key_derivation deaf_to_you "party-room" "me" "hello" (create ∅))
    as (Hkey & Hinj & Henter & _).
  split; [exact Hkey|]. split; [exact Hinj | exact Henter].
Defined.

(** ** More on the registry *)

Lemma nextId_play_counts evs cm :
  nextId (play evs cm) = nextId cm + count_subscribes evs.
Proof.
  revert cm. induction evs as [|[[c f|c j]|c] evs IH]; intros cm; cbn [play foldl happen step].
  - simpl. lia.
  - fold (play evs (subscribe c f cm).2). rewrite IH, nextId_subscribe. simpl. lia.
  - fold (play evs (unsubscribe c j cm)). rewrite IH. by rewrite nextId_unsubscribe.
  - fold (play evs (remove_entry c cm)). by rewrite IH.
Qed.

(** X1: listener ids count the [subscribe] calls.  Whatever happened to a new
    manager, its next id is the number of [subscribe] calls so far, and that
    is the id in the handle of the next [subscribe]: unsubscribing and removed
    entries never give an id back. *)
Theorem listener_ids_count_subscribes
    (store : gmap string (gset string)) (evs : list event) (c : string) (f : callback) :
  nextId (play evs (create store)) = count_subscribes evs
  /\ (subscribe c f (play evs (create store))).1 = (c, count_subscribes evs)
  /\ (forall evs' d g,
        (subscribe d g (play evs' (subscribe c f (play evs (create store))).2)).1.2
        ≠ count_subscribes evs).
Proof.
  assert (Hn : nextId (play evs (create store)) = count_subscribes evs)
    by by rewrite nextId_play_counts.
  split; [done|]. split; [by rewrite <- Hn|].
  intros evs' d g.
  change (nextId (play evs' (subscribe c f (play evs (create store))).2)
          ≠ count_subscribes evs).
  rewrite nextId_play_counts, nextId_subscribe. lia.
Qed.

Lemma props_on_subscribe c f cm d :
  c ≠ d -> props_on (subscribe c f cm).2 d = props_on cm d.
Proof.
  intros Hcd. unfold subscribe. cbn [snd]. destruct (subscribers_at cm c); [done| |done].
  by rewrite props_on_insert, decide_False.
Qed.

Lemma props_on_unsubscribe c id cm d :
  c ≠ d -> props_on (unsubscribe c id cm) d = props_on cm d.
Proof.
  intros Hcd. unfold unsubscribe. destruct (subscribers_at cm c); [by case_decide| |done].
  case_decide; by rewrite props_on_insert, decide_False.
Qed.

Lemma listener_subscribe_elsewhere c f cm d j :
  d ≠ c -> listener (subscribe c f cm).2 d j = listener cm d j.
Proof.
  intros Hdc. unfold listener, subscribers_at.
  rewrite props_on_subscribe by done.
  assert (Hsame : subscribers (subscribe c f cm).2 !! d = subscribers cm !! d).
  { unfold subscribe. cbn [snd].
    destruct (subscribers_at cm c); cbn [subscribers]; [|done|];
      by rewrite lookup_insert_ne. }
  by rewrite Hsame.
Qed.

Lemma listener_subscribe c f cm d j :
  listener (subscribe c f cm).2 d j
  = if decide (d = c /\ j = nextId cm) then Some f else listener cm d j.
Proof.
  case_decide as Hdj.
  - destruct Hdj as [-> ->]. apply listener_subscribe_new.
  - destruct (decide (j = nextId cm)) as [->|Hj].
    + apply listener_subscribe_elsewhere. intros ->. by apply Hdj.
    + by apply listener_subscribe_old.
Qed.

Lemma listener_unsubscribe c id cm d j :
  unshadowed_at cm c ->
  listener (unsubscribe c id cm) d j
  = if decide (d = c /\ j = id) then None else listener cm d j.
Proof.
  intros Hplain. case_decide as Hdj.
  - destruct Hdj as [-> ->]. by apply listener_unsubscribe_same.
  - apply listener_unsubscribe_other; [done|]. intros [= -> ->]. by apply Hdj.
Qed.

Lemma listener_removed_Some e cm d j :
  tables_ok cm -> is_Some (listener (remove_entry e cm) d j) -> is_Some (listener cm d j).
Proof.
  intros Hok [g Hg]. destruct (listener cm d j) as [g'|] eqn:Hl; [eauto|].
  by rewrite (listener_remove_entry e cm d j Hok Hl) in Hg.
Qed.

(** X2: [unsubscribe(channel, listenerId)] removes that one registration and
    nothing else: every other listener, on this channel or another, stays
    registered with the same callback.  This is for a registry in which the
    entry of [channel], if there is one, hides no member of
    [Object.prototype]. *)
Theorem unsubscribe_removes_exactly_one
    (c : string) (id : nat) (cm : ChannelManager) (d : string) (j : nat) :
  unshadowed_at cm c ->
  listener (unsubscribe c id cm) c id = None
  /\ ((d, j) ≠ (c, id) -> listener (unsubscribe c id cm) d j = listener cm d j)
  /\ nextId (unsubscribe c id cm) = nextId cm.
Proof.
  intros Hplain.
  split; [by apply listener_unsubscribe_same|]. split; [|apply nextId_unsubscribe].
  intros Hne. apply listener_unsubscribe_other; [done | congruence].
Qed.

Lemma unsubscribe_removes_exactly_one_witness :
  listener (unsubscribe "me" 0 faulty_then_quiet) "me" 0 = None
  /\ listener (unsubscribe "me" 0 faulty_then_quiet) "me" 1 = Some quiet.
Proof.
  destruct (unsubscribe_removes_exactly_one "me" 0 faulty_then_quiet "me" 1)
    as (Hgone & Hkept & _).
  - intros _. reflexivity.
  - split; [exact Hgone|]. rewrite Hkept; [reflexivity | intros H; discriminate H].
Defined.

(** The proviso is needed: when an entry set on the registry from
    outside hides [constructor], removing its last listener uncovers the
    listener stored on the inherited value. *)
Lemma unsubscribe_uncovers_inherited_listener :
  listener shadowing_constructor "constructor" 7 = None
  /\ listener (unsubscribe "constructor" 5 shadowing_constructor) "constructor" 7
     = Some faulty.
Proof. split; reflexivity. Qed.

(** X3: [subscribe(channel, fn)] registers [fn] under the id of the handle it
    returns and changes no other registration; the id it uses is the
    manager's next id, which it advances by one. *)
Theorem subscribe_adds_exactly_one
    (c : string) (f : callback) (cm : ChannelManager) (d : string) (j : nat) :
  (subscribe c f cm).1 = (c, nextId cm)
  /\ listener (subscribe c f cm).2 c (nextId cm) = Some f
  /\ ((d, j) ≠ (c, nextId cm) -> listener (subscribe c f cm).2 d j = listener cm d j)
  /\ nextId (subscribe c f cm).2 = S (nextId cm).
Proof.
  split; [done|]. split; [apply listener_subscribe_new|].
  split; [|apply nextId_subscribe].
  intros Hne. rewrite listener_subscribe. apply decide_False.
  intros [-> ->]. by apply Hne.
Qed.

Lemma subscribe_adds_exactly_one_witness :
  listener (subscribe "me" quiet faulty_then_quiet).2 "me" 2 = Some quiet
  /\ listener (subscribe "me" quiet faulty_then_quiet).2 "me" 0 = Some faulty.
Proof.
  destruct (subscribe_adds_exactly_one "me" quiet faulty_then_quiet "me" 0)
    as (_ & Hnew & Hold & _).
  split; [exact Hnew|]. rewrite Hold; [reflexivity | intros H; discriminate H].
Defined.

Lemma delete_appended id fn (o : Obj.t) :
  Forall (fun k => k < id) (Obj.keys o) -> Obj.delete id (o ++ [(id, fn)]) = o.
Proof.
  induction o as [|[k g] o IH]; simpl.
  - intros _. by rewrite decide_True.
  - intros [Hk Ho]%Forall_cons. simpl in Hk.
    rewrite decide_False by lia. by rewrite IH.
Qed.

Lemma subscribe_then_unsubscribe c f cm :
  tables_ok cm -> plain c ->
  subscribers (unsubscribe c (nextId cm) (subscribe c f cm).2) = subscribers cm
  /\ subConn (unsubscribe c (nextId cm) (subscribe c f cm).2)
     = subConn cm ++ (if subscribers cm !! c is Some _ then []
                      else [SUBSCRIBE c; UNSUBSCRIBE c]).
Proof.
  intros (Hown & _ & _) Hplain. unfold subscribe. cbn [snd].
  destruct (subscribers cm !! c) as [subs|] eqn:Hc.
  - rewrite (subscribers_at_table cm c subs Hc).
    unfold unsubscribe, subscribers_at. cbn [subscribers]. rewrite lookup_insert_eq.
    destruct (Hown c subs Hc) as (Hne & _ & Hbelow).
    rewrite ObjFacts.set_above, delete_appended by done.
    rewrite decide_False by by destruct subs.
    cbn [subscribers subConn]. rewrite insert_insert_eq, insert_id by done.
    by rewrite app_nil_r.
  - rewrite (subscribers_at_undefined cm c Hc Hplain).
    unfold unsubscribe, subscribers_at. cbn [subscribers]. rewrite lookup_insert_eq.
    simpl. destruct (decide (nextId cm = nextId cm)); [simpl | done].
    rewrite delete_insert_eq, delete_id by done. by rewrite <- app_assoc.
Qed.

(** X4: on a manager reached from a new one, and on a channel whose id names
    no member of [Object.prototype], [subscribe] followed by the invocation of
    the handle it returned restores the registry.  When the channel already had
    listeners nothing is sent to the broker; when it had none, SUBSCRIBE and
    then UNSUBSCRIBE are sent.  The listener id is spent all the same.
    Nothing before has used the channel id [__proto__]. *)
Theorem subscribe_then_invoke_restores_registry
    (store : gmap string (gset string)) (evs : list event) (c : string) (f : callback) :
  let cm := play evs (create store) in
  let cm' := invoke (subscribe c f cm).1 (subscribe c f cm).2 in
  plain c -> spares_prototype evs ->
  subscribers cm' = subscribers cm
  /\ subConn cm' = subConn cm ++ (if subscribers cm !! c is Some _ then []
                                  else [SUBSCRIBE c; UNSUBSCRIBE c])
  /\ active (subConn cm') = active (subConn cm) ∖
       (if subscribers cm !! c is Some _ then ∅ else {[c]})
  /\ nextId cm' = S (nextId cm).
Proof.
  intros cm cm' Hplain _.
  assert (Hok : tables_ok cm) by apply tables_ok_play, tables_ok_create.
  destruct (subscribe_then_unsubscribe c f cm Hok Hplain) as [Hsubs Hconn].
  split; [exact Hsubs|]. split; [exact Hconn|]. split.
  - unfold cm', invoke. change (subscribe c f cm).1.1 with c.
    change (subscribe c f cm).1.2 with (nextId cm).
    rewrite Hconn. destruct (subscribers cm !! c).
    + rewrite app_nil_r. apply leibniz_equiv. intros x.
      rewrite elem_of_difference. split; [|by intros [? _]].
      intros Hx. split; [done | apply not_elem_of_empty].
    + replace (subConn cm ++ [SUBSCRIBE c; UNSUBSCRIBE c])
        with ((subConn cm ++ [SUBSCRIBE c]) ++ [UNSUBSCRIBE c])
        by by rewrite <- app_assoc.
      rewrite active_unsubscribe, active_subscribe.
      apply leibniz_equiv. intros x.
      rewrite !elem_of_difference, elem_of_union, elem_of_singleton.
      split; [intros [[->|Hx] Hne]; [done | by split] | intros [Hx Hne]; split; [by right | done]].
  - unfold cm', invoke. by rewrite nextId_unsubscribe, nextId_subscribe.
Qed.

Lemma subscribe_then_invoke_restores_registry_witness :
  let cm := play [Call (Subscribe "you" quiet); Call (Subscribe "constructor" quiet)]
              (create ∅) in
  let cm' := invoke (subscribe "me" faulty cm).1 (subscribe "me" faulty cm).2 in
  subscribers cm' = subscribers cm
  /\ subConn cm' = subConn cm ++ [SUBSCRIBE "me"; UNSUBSCRIBE "me"]
  /\ active (subConn cm') = active (subConn cm) ∖ {["me"]}
  /\ nextId cm' = S (nextId cm).
Proof.
  apply (subscribe_then_invoke_restores_registry ∅
           [Call (Subscribe "you" quiet); Call (Subscribe "constructor" quiet)]
           "me" faulty);
    [reflexivity | repeat constructor; discriminate].
Defined.

Lemma listener_get cm c subs id :
  subscribers cm !! c = Some subs -> listener cm c id = Obj.get id subs.
Proof. intros Hc. unfold listener. by rewrite (subscribers_at_table cm c subs Hc). Qed.

Lemma sorted_get_all (subs : Obj.t) (P : callback -> Prop) :
  StronglySorted lt (Obj.keys subs) ->
  (forall id g, Obj.get id subs = Some g -> P g) ->
  Forall (fun kv => P kv.2) subs.
Proof.
  induction subs as [|[k g] subs IH]; simpl; [by constructor|].
  intros [Hsorted Hk]%StronglySorted_inv Hall. constructor.
  - apply (Hall k). by rewrite decide_True.
  - apply IH; [done|]. intros id g' Hget. apply (Hall id).
    case_decide as Hkid; [|done]. subst id.
    apply ObjFacts.get_Some_keys in Hget.
    eapply Forall_forall in Hk; [|exact Hget]. lia.
Qed.

Lemma keys_of_calls (subs : Obj.t) (m : string) :
  (map (fun kv => (kv.1, m)) subs).*1 = Obj.keys subs.
Proof. induction subs as [|[k g] subs IH]; [done|]. simpl. f_equal. exact IH. Qed.

(** X5: on a channel [c] whose id names no member of [Object.prototype], when
    every listener of [c] returns on message [m], a delivery of [m] on [c]
    calls each of them exactly once with [m], in ascending order of listener
    id, and the handler returns.  Nothing before has used the channel id
    [__proto__]. *)
Theorem delivery_reaches_every_listener
    (store : gmap string (gset string)) (evs : list event) (c m : string) :
  let cm := play evs (create store) in
  plain c -> spares_prototype evs ->
  (forall id g, listener cm c id = Some g -> g m = Returns) ->
  (forall id g, listener cm c id = Some g ->
     calls_to id (calls (on_message c m cm)) = [(id, m)])
  /\ (forall call, call ∈ calls (on_message c m cm) ->
        is_Some (listener cm c call.1) /\ call.2 = m)
  /\ StronglySorted lt (calls (on_message c m cm)).*1
  /\ outcome (on_message c m cm) = Returns.
Proof.
  intros cm Hplain _ Hret.
  assert (Hok : tables_ok cm) by apply tables_ok_play, tables_ok_create.
  unfold on_message. destruct (subscribers cm !! c) as [subs|] eqn:Hc.
  - rewrite (subscribers_at_table cm c subs Hc).
    destruct Hok as (Hown & _ & _).
    destruct (Hown c subs Hc) as (_ & Hsorted & _).
    assert (Hall : Forall (fun kv => kv.2 m = Returns) subs).
    { apply (sorted_get_all subs (fun g => g m = Returns) Hsorted).
      intros id g Hget. apply (Hret id). by rewrite (listener_get cm c subs). }
    pose proof (forEach_returns subs m Hall) as Hfor.
    split; [|split; [|split]].
    + intros id g Hl. rewrite (listener_get cm c subs) in Hl by done.
      assert (Honce : calls_to id (forEach subs m).1 = [(id, m)]).
      { apply (forEach_once subs id g m Hsorted Hl).
        intros j g' _ Hj. apply (Hret j). by rewrite (listener_get cm c subs). }
      by destruct (forEach subs m).
    + intros call Hin.
      assert (Hin' : call ∈ (forEach subs m).1) by by destruct (forEach subs m).
      apply forEach_calls in Hin' as [Hkey ->]. split; [|done].
      rewrite (listener_get cm c subs) by done.
      destruct (Obj.get call.1 subs) eqn:Hget; [eauto|].
      by apply ObjFacts.get_None_keys in Hget.
    + rewrite Hfor. cbn [calls]. by rewrite keys_of_calls.
    + by rewrite Hfor.
  - rewrite (subscribers_at_undefined cm c Hc Hplain).
    simpl. split; [|split; [|split]]; try done.
    + intros id g Hl. unfold listener in Hl.
      by rewrite (subscribers_at_undefined cm c Hc Hplain) in Hl.
    + by intros call ?%elem_of_nil.
    + constructor.
Qed.

Lemma delivery_reaches_every_listener_witness :
  let cm := play [Call (Subscribe "me" quiet); Call (Subscribe "you" faulty);
                  Call (Subscribe "me" quiet)] (create ∅) in
  calls (on_message "me" "hello" cm) = [(0, "hello"); (2, "hello")]
  /\ outcome (on_message "me" "hello" cm) = Returns.
Proof.
  intros cm.
  destruct (delivery_reaches_every_listener ∅
              [Call (Subscribe "me" quiet); Call (Subscribe "you" faulty);
               Call (Subscribe "me" quiet)] "me" "hello") as (_ & _ & _ & Hout).
  - reflexivity.
  - repeat constructor; discriminate.
  - intros id g. unfold listener.
    destruct id as [|[|[|id]]]; vm_compute; intros [= <-]; reflexivity.
  - split; [reflexivity | exact Hout].
Defined.

(** ** Listener ids across channels *)

Lemma ids_owned_once_create store : ids_owned_once (create store).
Proof.
  intros c d j [g Hg]. unfold listener, subscribers_at, props_on in Hg.
  simpl in Hg. rewrite !lookup_empty in Hg.
  by destruct (Object_prototype c).
Qed.

Lemma ids_owned_once_happen cm ev :
  tables_ok cm -> ids_owned_once cm -> ids_owned_once (happen cm ev).
Proof.
  intros Hok Hown c d j. destruct ev as [[e g|e i]|e]; cbn [happen step].
  - rewrite !listener_subscribe. repeat case_decide.
    + intros _ _. destruct_and!. congruence.
    + intros _ [g' Hg']. apply (listener_below _ _ _ _ Hok) in Hg'.
      destruct_and!. lia.
    + intros [g' Hg'] _. apply (listener_below _ _ _ _ Hok) in Hg'.
      destruct_and!. lia.
    + apply Hown.
  - assert (He : unshadowed_at cm e) by (intros ?; by apply (tables_ok_unshadowed cm e)).
    rewrite !listener_unsubscribe by done. repeat case_decide;
      try (by intros [? ?]); try (by intros _ [? ?]). apply Hown.
  - intros Hc Hd. apply (Hown c d j); by apply (listener_removed_Some e).
Qed.

Lemma ids_owned_once_play evs cm :
  tables_ok cm -> ids_owned_once cm -> ids_owned_once (play evs cm).
Proof.
  revert cm. induction evs as [|ev evs IH]; intros cm Hok Hown; simpl; [done|].
  apply IH; [by apply tables_ok_happen | by apply ids_owned_once_happen].
Qed.

(** A delivery on [c] calls only listeners of [c] and, where lodash indexes
    a built-in function, listeners stored on [Object.prototype]. *)
Lemma not_listening_not_called cm c m id :
  listener cm c id = None -> Obj.get id (props_on cm "__proto__") = None ->
  calls_to id (calls (on_message c m cm)) = [].
Proof.
  unfold listener, on_message. intros Hl Hproto.
  destruct (subscribers_at cm c) as [subs|[n|] props|]; [| | |done].
  - apply calls_to_none. intros call Hin.
    assert (Hin' : call ∈ (forEach subs m).1) by by destruct (forEach subs m).
    apply forEach_calls in Hin' as [Hkey _]. intros Heq. subst id.
    by apply ObjFacts.get_None_keys in Hl.
  - apply calls_to_none. intros call Hin.
    assert (Hin' : call ∈ (arrayEach (seq 0 n) props (props_on cm "__proto__") m).1)
      by by destruct (arrayEach (seq 0 n) props (props_on cm "__proto__") m).
    apply arrayEach_calls in Hin' as [[g Hg] _]. intros Heq. subst id.
    by rewrite (at_index_None props _ _ Hl Hproto) in Hg.
  - apply calls_to_none. intros call Hin.
    assert (Hin' : call ∈ (forEach props m).1) by by destruct (forEach props m).
    apply forEach_calls in Hin' as [Hkey _]. intros Heq. subst id.
    by apply ObjFacts.get_None_keys in Hl.
Qed.

Lemma listener_on_prototype cm id :
  tables_ok cm -> listener cm "__proto__" id = Obj.get id (props_on cm "__proto__").
Proof.
  intros Hok. unfold listener.
  destruct (subscribers cm !! "__proto__") as [subs|] eqn:Hc.
  - assert (Hplain : plain "__proto__") by (apply (tables_ok_unshadowed cm); eauto).
    discriminate Hplain.
  - by rewrite (subscribers_at_inherited cm "__proto__" ObjectPrototype Hc).
Qed.

Lemma unpolluted_happen cm ev :
  event_channel ev ≠ "__proto__" -> unpolluted cm -> unpolluted (happen cm ev).
Proof.
  unfold unpolluted. intros Hev Hcm.
  destruct ev as [[e g|e i]|e]; cbn [happen step]; simpl in Hev.
  - by rewrite props_on_subscribe.
  - by rewrite props_on_unsubscribe.
  - exact Hcm.
Qed.

Lemma unpolluted_play evs cm :
  spares_prototype evs -> unpolluted cm -> unpolluted (play evs cm).
Proof.
  revert cm. induction evs as [|ev evs IH]; intros cm Hevs Hcm; simpl; [done|].
  apply Forall_cons in Hevs as [Hev Hevs].
  apply IH; [done | by apply unpolluted_happen].
Qed.

(** X6: a message on one channel never calls a listener of another channel,
    as long as no listener was stored on [Object.prototype] itself.  Listener
    ids are owned by one channel only, so a delivery on [c] makes no call to an
    id that is registered under a different channel [d]. *)
Theorem delivery_stays_on_its_channel
    (store : gmap string (gset string)) (evs : list event)
    (c d m : string) (j : nat) (g : callback) :
  let cm := play evs (create store) in
  spares_prototype evs ->
  listener cm d j = Some g -> d ≠ c ->
  listener cm c j = None
  /\ calls_to j (calls (on_message c m cm)) = [].
Proof.
  intros cm Hspares Hl Hne.
  assert (Hnone : listener cm c j = None).
  { destruct (listener cm c j) as [g'|] eqn:Hc; [|done]. exfalso. apply Hne.
    apply (ids_owned_once_play evs (create store) (tables_ok_create store)
             (ids_owned_once_create store) d c j); [by exists g | by exists g']. }
  split; [done|]. apply not_listening_not_called; [done|].
  assert (Hclean : unpolluted cm) by by apply unpolluted_play.
  unfold unpolluted in Hclean. by rewrite Hclean.
Qed.

Lemma delivery_stays_on_its_channel_witness :
  let cm := play [Call (Subscribe "me" quiet); Call (Subscribe "you" faulty)] (create ∅) in
  listener cm "me" 1 = None
  /\ calls_to 1 (calls (on_message "me" "hello" cm)) = [].
Proof.
  apply (delivery_stays_on_its_channel ∅
           [Call (Subscribe "me" quiet); Call (Subscribe "you" faulty)]
           "me" "you" "hello" 1 faulty).
  - repeat constructor; discriminate.
  - reflexivity.
  - intros H. discriminate H.
Defined.

(** The proviso is needed: a listener stored on [Object.prototype]
    through the channel id [__proto__] is called by a message on
    [constructor]. *)
Lemma prototype_listener_is_called_elsewhere :
  let cm := play [Call (Subscribe "__proto__" quiet)] (create ∅) in
  listener cm "__proto__" 0 = Some quiet
  /\ listener cm "constructor" 0 = None
  /\ calls_to 0 (calls (on_message "constructor" "hello" cm)) = [(0, "hello")].
Proof. repeat split; reflexivity. Qed.

(** X7: once the handle returned by [subscribe] has been invoked, its
    listener is never called again: whatever happens to the registry before
    and after the invocation, no message on any channel makes a call to the
    listener id of the handle. *)
Theorem unsubscribed_listener_is_never_called
    (store : gmap string (gset string)) (evs1 evs2 evs3 : list event)
    (c : string) (f : callback) (d m : string) :
  let cm1 := play evs1 (create store) in
  let h := (subscribe c f cm1).1 in
  let cm := play evs3 (invoke h (play evs2 (subscribe c f cm1).2)) in
  listener cm d h.2 = None
  /\ calls_to h.2 (calls (on_message d m cm)) = [].
Proof.
  intros cm1 h cm.
  assert (Hok1 : tables_ok cm1) by apply tables_ok_play, tables_ok_create.
  set (cm2 := play evs2 (subscribe c f cm1).2) in *.
  assert (Hok2 : tables_ok cm2) by by apply tables_ok_play, tables_ok_subscribe.
  assert (Hok : tables_ok cm) by by apply tables_ok_play, tables_ok_unsubscribe.
  assert (Hid2 : h.2 < nextId cm2).
  { pose proof (nextId_play evs2 (subscribe c f cm1).2) as Hle.
    fold cm2 in Hle. rewrite nextId_subscribe in Hle. simpl. lia. }
  assert (Hnone : forall e, listener cm e h.2 = None).
  { intros e. apply unregistered_stays_play.
    - by apply tables_ok_unsubscribe.
    - unfold invoke. by rewrite nextId_unsubscribe.
    - unfold invoke. rewrite listener_unsubscribe
        by (intros ?; by apply (tables_ok_unshadowed cm2)).
      case_decide as Hd; [done|].
      unfold cm2. apply unregistered_stays_play.
      + by apply tables_ok_subscribe.
      + rewrite nextId_subscribe. simpl. lia.
      + rewrite listener_subscribe. rewrite decide_False.
        * destruct (listener cm1 e h.2) as [g|] eqn:Hl; [|done].
          apply (listener_below _ _ _ _ Hok1) in Hl. simpl in Hl. lia.
        * intros [-> _]. by apply Hd. }
  split; [apply Hnone|]. apply not_listening_not_called; [apply Hnone|].
  rewrite <- (listener_on_prototype cm h.2 Hok). apply Hnone.
Qed.

(** ** Commands sent to the broker *)

Lemma disciplined_snoc seen log cmd :
  disciplined seen (log ++ [cmd])
  = disciplined seen log
    && match cmd with
       | SUBSCRIBE c =>
           bool_decide (c ∉ foldl (fun s cmd =>
                                     match cmd with
                                     | SUBSCRIBE c => {[c]} ∪ s
                                     | UNSUBSCRIBE c => s ∖ {[c]}
                                     end) seen log)
       | UNSUBSCRIBE c =>
           bool_decide (c ∈ foldl (fun s cmd =>
                                     match cmd with
                                     | SUBSCRIBE c => {[c]} ∪ s
                                     | UNSUBSCRIBE c => s ∖ {[c]}
                                     end) seen log)
       end.
Proof.
  revert seen. induction log as [|[c|c] log IH]; intros seen; simpl.
  - destruct cmd; simpl; by rewrite andb_true_r.
  - rewrite IH. by rewrite andb_assoc.
  - rewrite IH. by rewrite andb_assoc.
Qed.

Lemma disciplined_step cm o :
  plain (op_channel o) ->
  broker_in_step cm -> disciplined ∅ (subConn cm) = true ->
  disciplined ∅ (subConn (step cm o)) = true.
Proof.
  intros Hplain Hb Hd. destruct o as [c f|c id]; cbn [step]; simpl in Hplain.
  - unfold subscribe. cbn [snd].
    destruct (subscribers cm !! c) as [subs|] eqn:Hc.
    + by rewrite (subscribers_at_table cm c subs Hc).
    + rewrite (subscribers_at_undefined cm c Hc Hplain). cbn [subConn].
      rewrite disciplined_snoc, Hd. simpl. apply bool_decide_eq_true.
      intros Hin. apply Hb in Hin. rewrite Hc in Hin. by destruct Hin.
  - unfold unsubscribe.
    destruct (subscribers cm !! c) as [subs|] eqn:Hc.
    + rewrite (subscribers_at_table cm c subs Hc).
      case_decide; cbn [subConn]; [|done].
      rewrite disciplined_snoc, Hd. simpl. apply bool_decide_eq_true.
      apply Hb. by rewrite Hc.
    + by rewrite (subscribers_at_undefined cm c Hc Hplain).
Qed.

Lemma broker_in_step_step cm o : broker_in_step cm -> broker_in_step (step cm o).
Proof.
  destruct o; cbn [step];
    [apply broker_in_step_subscribe | apply broker_in_step_unsubscribe].
Qed.

Lemma disciplined_run ops cm :
  plain_ops ops ->
  broker_in_step cm -> disciplined ∅ (subConn cm) = true ->
  disciplined ∅ (subConn (run ops cm)) = true.
Proof.
  revert cm. induction ops as [|o ops IH]; intros cm Hops Hb Hd; simpl; [done|].
  apply Forall_cons in Hops as [Ho Hops].
  apply IH; [done | by apply broker_in_step_step | by apply disciplined_step].
Qed.

(** X8: through any sequence of [subscribe] and [unsubscribe] calls on
    channels whose ids name no member of [Object.prototype], the manager never
    sends SUBSCRIBE for a channel it is subscribed to at the broker and never
    sends UNSUBSCRIBE for a channel it is not subscribed to: for each channel
    the two commands alternate, starting with SUBSCRIBE. *)
Theorem broker_commands_alternate (store : gmap string (gset string)) (ops : list op) :
  plain_ops ops ->
  disciplined ∅ (subConn (run ops (create store))) = true.
Proof.
  intros Hops. apply disciplined_run; [done | apply broker_in_step_create | done].
Qed.

Lemma broker_commands_alternate_witness :
  disciplined ∅ (subConn (run [Subscribe "me" quiet; Subscribe "me" faulty;
                               Unsubscribe "you" 0; Unsubscribe "me" 0;
                               Unsubscribe "me" 1; Unsubscribe "me" 1;
                               Subscribe "me" quiet]
                              (create ∅))) = true.
Proof.
  apply (broker_commands_alternate ∅).
  repeat constructor.
Defined.

(** On [constructor] the discipline is broken: removing a listener that was
    never registered sends UNSUBSCRIBE for a channel that was never
    subscribed. *)
Lemma unsubscribe_on_inherited_channel_breaks_discipline :
  subConn (run [Unsubscribe "constructor" 0] (create ∅)) = [UNSUBSCRIBE "constructor"]
  /\ disciplined ∅ (subConn (run [Unsubscribe "constructor" 0] (create ∅))) = false.
Proof. split; reflexivity. Qed.

(** ** More on rooms *)

Lemma smembers_of_sadd_any k key c r :
  smembers_of k (sadd key c r).2
  = if decide (k = key) then {[c]} ∪ smembers_of k r else smembers_of k r.
Proof.
  case_decide as Hk; [subst; apply smembers_of_sadd|].
  unfold sadd. case_decide; [done|].
  unfold smembers_of. simpl. by rewrite lookup_insert_ne.
Qed.

Lemma smembers_of_srem_any k key c r :
  smembers_of k (srem key c r).2
  = if decide (k = key) then smembers_of k r ∖ {[c]} else smembers_of k r.
Proof.
  case_decide as Hk; [subst; apply smembers_of_srem|].
  unfold srem. case_decide; [|done].
  unfold smembers_of. simpl.
  case_decide; [by rewrite lookup_delete_ne | by rewrite lookup_insert_ne].
Qed.

Lemma pubConn_enter room c cm :
  pubConn (enter room c cm).2 = (sadd (subscribersKey room) c (pubConn cm)).2.
Proof. unfold enter, ninvoke. by destruct (sadd _ _ _). Qed.

Lemma pubConn_leave room c cm :
  pubConn (leave room c cm).2 = (srem (subscribersKey room) c (pubConn cm)).2.
Proof. unfold leave, ninvoke. by destruct (srem _ _ _). Qed.

Lemma room_of_key room' room :
  subscribersKey room' = subscribersKey room <-> room' = room.
Proof. split; [apply subscribersKey_inj | by intros ->]. Qed.

Lemma room_members_enter room' room c cm :
  smembers_of (subscribersKey room') (pubConn (enter room c cm).2)
  = if decide (room' = room)
    then {[c]} ∪ smembers_of (subscribersKey room') (pubConn cm)
    else smembers_of (subscribersKey room') (pubConn cm).
Proof.
  rewrite pubConn_enter, smembers_of_sadd_any.
  repeat case_decide; try done; exfalso; by rewrite room_of_key in *.
Qed.

Lemma room_members_leave room' room c cm :
  smembers_of (subscribersKey room') (pubConn (leave room c cm).2)
  = if decide (room' = room)
    then smembers_of (subscribersKey room') (pubConn cm) ∖ {[c]}
    else smembers_of (subscribersKey room') (pubConn cm).
Proof.
  rewrite pubConn_leave, smembers_of_srem_any.
  repeat case_decide; try done; exfalso; by rewrite room_of_key in *.
Qed.

(** X9: [enter(room, channel)] adds [channel] to the members of [room] and to
    no other room; every other member of every room stays.  It resolves with
    1 when the channel was added and with 0 when it was a member already. *)
Theorem enter_adds_one_member (room c room' x : string) (cm : ChannelManager) :
  let before := smembers_of (subscribersKey room') (pubConn cm) in
  (exists l, (members room' (enter room c cm).2).1 = Resolved l
             /\ (x ∈ l <-> (room' = room /\ x = c) \/ x ∈ before))
  /\ (enter room c cm).1
     = Resolved (if decide (c ∈ smembers_of (subscribersKey room) (pubConn cm))
                 then 0 else 1).
Proof.
  intros before. split.
  - eexists. split; [by rewrite members_reads|].
    rewrite elem_of_elements, room_members_enter. fold before.
    case_decide as Hroom.
    + rewrite elem_of_union, elem_of_singleton. split.
      * intros [->|Hx]; [by left | by right].
      * intros [[_ ->]|Hx]; [by left | by right].
    + split; [by right|]. by intros [[? _]|?].
  - unfold enter, ninvoke, sadd. by case_decide.
Qed.

(** X10: [leave(room, channel)] removes [channel] from the members of [room]
    and touches no other member and no other room.  It resolves with 1 when
    the channel was a member and with 0 when it was not. *)
Theorem leave_removes_one_member (room c room' x : string) (cm : ChannelManager) :
  let before := smembers_of (subscribersKey room') (pubConn cm) in
  (exists l, (members room' (leave room c cm).2).1 = Resolved l
             /\ (x ∈ l <-> x ∈ before /\ ~ (room' = room /\ x = c)))
  /\ (leave room c cm).1
     = Resolved (if decide (c ∈ smembers_of (subscribersKey room) (pubConn cm))
                 then 1 else 0).
Proof.
  intros before. split.
  - eexists. split; [by rewrite members_reads|].
    rewrite elem_of_elements, room_members_leave. fold before.
    case_decide as Hroom.
    + rewrite elem_of_difference, elem_of_singleton. split.
      * intros [Hx Hne]. split; [done|]. by intros [_ ?].
      * intros [Hx Hne]. split; [done|]. intros ->. by apply Hne.
    + split; [intros Hx; split; [done | by intros [? _]] | by intros [? _]].
  - unfold leave, ninvoke, srem. by case_decide.
Qed.

(** X11: changes of membership commute.  Two [enter] calls, two [leave]
    calls, or an [enter] and a [leave] that do not concern the same channel in
    the same room, leave the same sets in the store whichever comes first. *)
Theorem membership_changes_commute (r1 c1 r2 c2 k : string) (cm : ChannelManager) :
  smembers_of k (pubConn (enter r2 c2 (enter r1 c1 cm).2).2)
  = smembers_of k (pubConn (enter r1 c1 (enter r2 c2 cm).2).2)
  /\ smembers_of k (pubConn (leave r2 c2 (leave r1 c1 cm).2).2)
     = smembers_of k (pubConn (leave r1 c1 (leave r2 c2 cm).2).2)
  /\ ((r1, c1) ≠ (r2, c2) ->
      smembers_of k (pubConn (leave r2 c2 (enter r1 c1 cm).2).2)
      = smembers_of k (pubConn (enter r1 c1 (leave r2 c2 cm).2).2)).
Proof.
  rewrite ?pubConn_enter, ?pubConn_leave, ?pubConn_enter, ?pubConn_leave.
  rewrite ?smembers_of_sadd_any, ?smembers_of_srem_any,
          ?smembers_of_sadd_any, ?smembers_of_srem_any.
  split; [|split].
  - repeat case_decide; try done. apply leibniz_equiv. intros x.
    rewrite !elem_of_union. tauto.
  - repeat case_decide; try done. apply leibniz_equiv. intros x.
    rewrite !elem_of_difference. tauto.
  - intros Hne. repeat case_decide; try done. apply leibniz_equiv. intros x.
    rewrite elem_of_difference, !elem_of_union, elem_of_difference, !elem_of_singleton.
    assert (c1 ≠ c2).
    { intros ->. apply Hne. f_equal. apply subscribersKey_inj. congruence. }
    split.
    + intros [[->|Hx] Hx2]; [by left | right; by split].
    + intros [->|[Hx Hx2]]; [split; [by left | done] | split; [by right | done]].
Qed.

Lemma membership_changes_commute_witness :
  smembers_of (subscribersKey "party-room")
    (pubConn (leave "party-room" "you" (enter "party-room" "me" party).2).2)
  = smembers_of (subscribersKey "party-room")
      (pubConn (enter "party-room" "me" (leave "party-room" "you" party).2).2).
Proof.
  apply (membership_changes_commute "party-room" "me" "party-room" "you"
           (subscribersKey "party-room") party).
  intros H. discriminate H.
Defined.

Lemma not_published (channels : list string) (c m m' : string) :
  c ∉ channels -> PUBLISH c m' ∉ map (fun d => PUBLISH d m) channels.
Proof.
  intros Hc Hin. apply list_elem_of_fmap in Hin as (d & [= -> _] & Hd). done.
Qed.

(** X12: [broadcast] follows the membership.  After [enter(room, c)] a
    broadcast to the room sends exactly one PUBLISH of the message to [c];
    after [leave(room, c)] it sends no PUBLISH to [c]; after [close(room)] it
    sends no PUBLISH at all. *)
Theorem broadcast_follows_membership
    (ack : string -> string -> promise nat) (room c m : string) (cm : ChannelManager) :
  let key := subscribersKey room in
  (exists issued,
     sent (pubConn (broadcast ack room m (enter room c cm).2).2)
     = sent (pubConn (enter room c cm).2) ++ SMEMBERS key :: issued
     /\ filter (fun cmd => cmd = PUBLISH c m) issued = [PUBLISH c m])
  /\ (exists issued,
        sent (pubConn (broadcast ack room m (leave room c cm).2).2)
        = sent (pubConn (leave room c cm).2) ++ SMEMBERS key :: issued
        /\ forall m', PUBLISH c m' ∉ issued)
  /\ sent (pubConn (broadcast ack room m (close room cm).2).2)
     = sent (pubConn (close room cm).2) ++ [SMEMBERS key].
Proof.
  intros key. split; [|split].
  - eexists. rewrite broadcast_spec. cbn [snd pubConn sent]. split; [done|].
    apply one_publish_each; [apply NoDup_elements|].
    rewrite elem_of_elements, room_members_enter, decide_True by done.
    apply elem_of_union. left. by apply elem_of_singleton.
  - eexists. rewrite broadcast_spec. cbn [snd pubConn sent]. split; [done|].
    intros m'. apply not_published.
    rewrite elem_of_elements, room_members_leave, decide_True by done.
    rewrite elem_of_difference, elem_of_singleton. by intros [_ ?].
  - rewrite broadcast_spec. cbn [snd pubConn sent]. do 2 f_equal.
    unfold smembers_of, close, ninvoke, del. simpl.
    rewrite lookup_delete_eq. simpl. by rewrite elements_empty.
Qed.

Lemma q_all_value {A} (ps : list (promise A)) (vs : list A) :
  q_all ps = Resolved vs <-> ps = map Resolved vs.
Proof.
  revert vs. induction ps as [|[v|e] ps IH]; intros vs; simpl.
  - split; [intros [= <-]; done | by destruct vs].
  - destruct (q_all ps) as [ws|e] eqn:Hq.
    + split.
      * intros [= <-]. simpl. f_equal. by apply IH.
      * destruct vs as [|v' vs]; [done|]. simpl. intros [= -> Hps].
        f_equal. f_equal. apply IH in Hps. congruence.
    + split; [done|]. destruct vs as [|v' vs]; [done|]. simpl.
      intros [= -> Hps]. apply IH in Hps. congruence.
  - split; [done | by destruct vs].
Qed.

Lemma q_all_reason {A} (ps : list (promise A)) (e : string) :
  q_all ps = Rejected e -> Rejected e ∈ ps.
Proof.
  induction ps as [|[v|e'] ps IH]; simpl; [done| |].
  - destruct (q_all ps); [done|]. intros [= ->]. apply elem_of_cons. right. by apply IH.
  - intros [= ->]. apply elem_of_cons. by left.
Qed.

(** X13: what a broadcast settles with.  It passes the outcome of [members]
    to a continuation.  When reading the members fails, the broadcast is
    rejected with the reason of that failure and nothing is published.  When
    the members were read and the broadcast resolves, its value holds the
    broker's reply to each member's publish, in the order of the members; when
    it is rejected then, the reason is the reason of a publish to one of the
    members that was rejected. *)
Theorem broadcast_settles_with
    (ack : string -> string -> promise nat) (room m : string) (cm : ChannelManager) :
  broadcast ack room m cm
  = then_publish ack m (members room cm).1 (members room cm).2
  /\ (forall e cm1, then_publish ack m (Rejected e) cm1 = (Rejected e, cm1))
  /\ (forall channels cm1 vs,
        (then_publish ack m (Resolved channels) cm1).1 = Resolved vs <->
        map (fun c => ack c m) channels = map Resolved vs)
  /\ (forall channels cm1 e,
        (then_publish ack m (Resolved channels) cm1).1 = Rejected e ->
        exists c, c ∈ channels /\ ack c m = Rejected e)
  /\ (forall channels cm1,
        sent (pubConn (then_publish ack m (Resolved channels) cm1).2)
        = sent (pubConn cm1) ++ map (fun c => PUBLISH c m) channels).
Proof.
  split; [|split; [done|split; [|split]]].
  - unfold broadcast. by destruct (members room cm).
  - intros channels cm1 vs. unfold then_publish. rewrite publish_each_spec.
    apply q_all_value.
  - intros channels cm1 e. unfold then_publish. rewrite publish_each_spec.
    cbn [fst]. intros He. apply q_all_reason in He.
    apply list_elem_of_fmap in He as (c & Hc & Hin). eauto.
  - intros channels cm1. unfold then_publish. by rewrite publish_each_spec.
Qed.

Lemma broadcast_settles_with_witness :
  (broadcast deaf_to_you "party-room" "hello" party).1 = Rejected "ECONNRESET"
  /\ exists c, c ∈ ["me"; "you"] /\ deaf_to_you c "hello" = Rejected "ECONNRESET".
Proof.
  assert (H : (then_publish deaf_to_you "hello" (Resolved ["me"; "you"]) party).1
              = Rejected "ECONNRESET") by (vm_compute; reflexivity).
  split; [vm_compute; reflexivity|].
  destruct (broadcast_settles_with deaf_to_you "party-room" "hello" party)
    as (_ & _ & _ & Hreason & _).
  exact (Hreason ["me"; "you"] party "ECONNRESET" H).
Defined.

(** ** The two halves of the manager *)

Lemma combine_self cm : combine cm cm = cm.
Proof. by destruct cm. Qed.

Lemma happen_combine a b ev : happen (combine a b) ev = combine (happen a ev) b.
Proof.
  destruct ev as [[c f|c id]|c]; cbn [happen step]; [| |done].
  - unfold subscribe. cbn [snd].
    change (subscribers_at (combine a b) c) with (subscribers_at a c).
    by destruct (subscribers_at a c).
  - unfold unsubscribe.
    change (subscribers_at (combine a b) c) with (subscribers_at a c).
    destruct (subscribers_at a c); [| |done]; by case_decide.
Qed.

Lemma ninvoke_combine {A} (command : redis -> promise A * redis) a b :
  (ninvoke command (combine a b)).2 = combine a (ninvoke command b).2.
Proof. unfold ninvoke, combine. simpl. by destruct (command (pubConn b)). Qed.

Lemma room_step_combine ack a b o :
  room_step ack (combine a b) o = combine a (room_step ack b o).
Proof.
  destruct o; cbn [room_step]; try apply ninvoke_combine.
  by rewrite !broadcast_spec.
Qed.

Lemma perform_combine ack acts a b :
  perform ack acts (combine a b)
  = combine (play (registry_part acts) a) (rooms ack (rooms_part acts) b).
Proof.
  revert a b. induction acts as [|[ev|o] acts IH]; intros a b; simpl; [done| |].
  - by rewrite happen_combine, IH.
  - by rewrite room_step_combine, IH.
Qed.

(** X14: the registry and the room operations do not see each other.  After
    any interleaving of registry events with [enter], [leave], [members],
    [close], [broadcast] and [publish] calls, the registry, the listener ids
    and the commands sent on the subscription connection are those of the
    registry events alone, and the store and the commands sent on the
    publishing connection are those of the other calls alone.  In particular
    [publish] and [broadcast] do not look at the local listeners. *)
Theorem registry_and_rooms_are_independent
    (ack : string -> string -> promise nat) (acts : list action) (cm : ChannelManager) :
  perform ack acts cm
  = combine (play (registry_part acts) cm) (rooms ack (rooms_part acts) cm).
Proof. rewrite <- (combine_self cm) at 1. apply perform_combine. Qed.

(** ** The plugin *)

Lemma after_on_message c m cm : after (on_message c m cm) = cm.
Proof.
  unfold on_message. destruct (subscribers_at cm c) as [subs|[n|] props|]; [| | |done].
  - by destruct (forEach _ _).
  - by destruct (arrayEach _ _ _ _).
  - by destruct (forEach _ _).
Qed.

Lemma room_step_registry ack cm o :
  room_step ack cm o = combine cm (room_step ack cm o).
Proof. rewrite <- room_step_combine. by rewrite combine_self. Qed.

Lemma lookup_apply_calls (l : list (nat * string)) (conns : gmap nat connection) id :
  apply_calls l conns !! id
  = (fun conn => Connection (user_channel conn)
                   (foldl (fun s call => sse_write call.2 s) (stream conn) (calls_to id l))
                   (connected conn)) <$> conns !! id.
Proof.
  unfold apply_calls, calls_to. revert conns.
  induction l as [|[j m] l IH]; intros conns; simpl.
  - destruct (conns !! id) as [[? ? ?]|]; done.
  - rewrite IH. destruct (decide (j = id)) as [->|Hne].
    + rewrite filter_cons_True by done. rewrite lookup_alter_eq.
      by destruct (conns !! id) as [[? ? ?]|].
    + rewrite filter_cons_False by done. by rewrite lookup_alter_ne.
Qed.

Lemma listener_create store c id : listener (create store) c id = None.
Proof.
  unfold listener, subscribers_at, props_on. simpl. rewrite !lookup_empty.
  by destruct (Object_prototype c).
Qed.

Lemma connections_ok_register o store : connections_ok (register o store).
Proof.
  split; [apply tables_ok_create|]. split; [apply broker_in_step_create|].
  split; [|split].
  - intros u id g Hl. simpl in Hl. by rewrite listener_create in Hl.
  - intros id u s Hc. simpl in Hc. by rewrite lookup_empty in Hc.
  - intros id conn Hc. simpl in Hc. by rewrite lookup_empty in Hc.
Qed.

Lemma connections_ok_get_events req sv :
  connections_ok sv -> connections_ok (get_events req sv).
Proof.
  intros (Hok & Hb & Hl & Hc & Hid).
  change (get_events req sv)
    with (Server (userMethod sv)
            (subscribe (userMethod sv req) sse_listener (channels sv)).2
            (<[nextId (channels sv) := Connection (userMethod sv req) (Sse 0 []) true]>
               (connections sv))).
  set (u := userMethod sv req).
  split; [by apply tables_ok_subscribe|]. split; [by apply broker_in_step_subscribe|].
  cbn [channels connections]. split; [|split].
  - intros v id g. rewrite listener_subscribe. case_decide as Hv.
    + destruct Hv as [-> ->]. intros [= <-]. split; [done|].
      rewrite lookup_insert_eq. eauto.
    + intros Hg. destruct (Hl v id g Hg) as (-> & s & Hs). split; [done|].
      exists s. rewrite lookup_insert_ne; [done|].
      apply Hid in Hs. lia.
  - intros id v s. destruct (decide (id = nextId (channels sv))) as [->|Hne].
    + rewrite lookup_insert_eq. intros [= <- <-]. apply listener_subscribe_new.
    + rewrite lookup_insert_ne by done. intros Hs.
      rewrite listener_subscribe, decide_False; [by apply (Hc id v s)|]. by intros [_ ?].
  - intros id conn. rewrite nextId_subscribe.
    destruct (decide (id = nextId (channels sv))) as [->|Hne].
    + intros _. lia.
    + rewrite lookup_insert_ne by done. intros Hs. apply Hid in Hs. lia.
Qed.

Lemma connections_ok_disconnect id sv :
  connections_ok sv -> connections_ok (disconnect id sv).
Proof.
  intros Hall. pose proof Hall as (Hok & Hb & Hl & Hc & Hid). unfold disconnect.
  destruct (connections sv !! id) as [[u s [|]]|] eqn:Hconn; [|done|done].
  cbn [user_channel stream connected].
  assert (Hu : unshadowed_at (channels sv) u)
    by (intros ?; by apply (tables_ok_unshadowed (channels sv) u)).
  split; [by apply tables_ok_unsubscribe|]. split; [by apply broker_in_step_unsubscribe|].
  cbn [channels connections]. split; [|split].
  - intros v j g. rewrite listener_unsubscribe by done. case_decide as Hv; [done|].
    intros Hg. destruct (Hl v j g Hg) as (-> & s' & Hs'). split; [done|].
    exists s'. rewrite lookup_insert_ne; [done|].
    intros ->. rewrite Hconn in Hs'. injection Hs' as -> ->. by apply Hv.
  - intros j v s'. destruct (decide (j = id)) as [->|Hne].
    + rewrite lookup_insert_eq. intros H. discriminate H.
    + rewrite lookup_insert_ne by done. intros Hs'.
      rewrite listener_unsubscribe, decide_False by (done || by intros [_ ?]).
      by apply (Hc j v s').
  - intros j conn. rewrite nextId_unsubscribe.
    destruct (decide (j = id)) as [->|Hne].
    + intros _. by apply (Hid id _ Hconn).
    + rewrite lookup_insert_ne by done. apply Hid.
Qed.

Lemma connections_ok_deliver c m sv :
  connections_ok sv -> connections_ok (deliver c m sv).
Proof.
  intros (Hok & Hb & Hl & Hc & Hid). unfold deliver.
  unfold connections_ok. cbn [channels connections]. rewrite after_on_message.
  split; [done|]. split; [done|]. split; [|split].
  - intros v j g Hg. destruct (Hl v j g Hg) as (-> & s & Hs). split; [done|].
    rewrite lookup_apply_calls, Hs. simpl. eauto.
  - intros j v s. rewrite lookup_apply_calls.
    destruct (connections sv !! j) as [[u' s' b']|] eqn:Hj; [|done].
    simpl. intros [= -> _ ->]. by apply (Hc j v s').
  - intros j conn. rewrite lookup_apply_calls.
    destruct (connections sv !! j) as [conn'|] eqn:Hj; [|done].
    intros _. by apply (Hid j conn').
Qed.

Lemma connections_ok_rooms ack o sv :
  connections_ok sv -> connections_ok (exposed ack o sv).
Proof. unfold exposed. rewrite room_step_registry. intros H. exact H. Qed.

Lemma connections_ok_serve ack sv e :
  connections_ok sv -> connections_ok (serve ack sv e).
Proof.
  destruct e as [req|id|req|req|req|f|o|c m]; cbn [serve].
  - apply connections_ok_get_events.
  - apply connections_ok_disconnect.
  - apply (connections_ok_rooms ack (Enter (params_room req) (userMethod sv req))).
  - apply (connections_ok_rooms ack (Leave (params_room req) (userMethod sv req))).
  - apply (connections_ok_rooms ack (Broadcast (params_room req) (payload req))).
  - intros H. exact H.
  - apply connections_ok_rooms.
  - apply connections_ok_deliver.
Qed.

Lemma connections_ok_serve_all ack es sv :
  connections_ok sv -> connections_ok (serve_all ack es sv).
Proof.
  revert sv. induction es as [|e es IH]; intros sv H; simpl; [done|].
  by apply IH, connections_ok_serve.
Qed.

Lemma frames_snoc k messages m :
  frames k (messages ++ [m])
  = frames k messages
    ++ ["id: " +:+ pretty (k + length messages) +:+ LF; "data: " +:+ m +:+ LF +:+ LF].
Proof.
  revert k. induction messages as [|m' messages IH]; intros k; simpl.
  - by rewrite Nat.add_0_r.
  - rewrite IH. by replace (S k + length messages) with (k + S (length messages)) by lia.
Qed.

Lemma numbered_write m s : numbered s -> numbered (sse_write m s).
Proof.
  intros (messages & Hw & Hid). exists (messages ++ [m]). simpl.
  rewrite frames_snoc, Hw, Hid, length_app. simpl. split; [done | lia].
Qed.

Lemma numbered_writes (l : list (nat * string)) s :
  numbered s -> numbered (foldl (fun s call => sse_write call.2 s) s l).
Proof.
  revert s. induction l as [|call l IH]; intros s Hs; simpl; [done|].
  by apply IH, numbered_write.
Qed.

Lemma numbered_serve ack sv e :
  (forall id conn, connections sv !! id = Some conn -> numbered (stream conn)) ->
  forall id conn, connections (serve ack sv e) !! id = Some conn -> numbered (stream conn).
Proof.
  intros Hnum id conn. destruct e as [req|j|req|req|req|f|o|c m]; cbn [serve];
    [ | | exact (Hnum id conn) .. | ].
  - change (get_events req sv)
      with (Server (userMethod sv)
              (subscribe (userMethod sv req) sse_listener (channels sv)).2
              (<[nextId (channels sv) := Connection (userMethod sv req) (Sse 0 []) true]>
                 (connections sv))).
    cbn [connections]. destruct (decide (nextId (channels sv) = id)) as [<-|Hne];
      intros Hlook.
    + rewrite lookup_insert_eq in Hlook. injection Hlook as <-. by exists [].
    + rewrite lookup_insert_ne in Hlook by done. by apply (Hnum id).
  - unfold disconnect.
    destruct (connections sv !! j) as [[u s [|]]|] eqn:Hj;
      [ | exact (Hnum id conn) | exact (Hnum id conn) ].
    cbn [connections user_channel stream connected].
    destruct (decide (j = id)) as [->|Hne]; intros Hlook.
    + rewrite lookup_insert_eq in Hlook. injection Hlook as <-. apply (Hnum id _ Hj).
    + rewrite lookup_insert_ne in Hlook by done. by apply (Hnum id).
  - unfold deliver. cbn [connections]. intros Hlook.
    rewrite lookup_apply_calls in Hlook.
    destruct (connections sv !! id) as [conn'|] eqn:Hid; [|done].
    simpl in Hlook. injection Hlook as <-. simpl.
    apply numbered_writes, (Hnum id conn' Hid).
Qed.

(** X15: on every stream of [GET /events] the events are numbered from 0
    without gaps, in the order they were written: the chunks are an [id:] line
    with the number of the event followed by a [data:] line with its message
    and an empty line, and the counter of the handler is the number of events
    written. *)
Theorem sse_events_are_numbered
    (ack : string -> string -> promise nat) (o : option (request -> string))
    (store : gmap string (gset string)) (es : list happening)
    (id : nat) (conn : connection) :
  connections (serve_all ack es (register o store)) !! id = Some conn ->
  exists messages,
    written (stream conn) = frames 0 messages
    /\ event_id (stream conn) = length messages.
Proof.
  assert (Hall : forall sv,
    (forall id conn, connections sv !! id = Some conn -> numbered (stream conn)) ->
    forall id conn, connections (serve_all ack es sv) !! id = Some conn ->
                    numbered (stream conn)).
  { induction es as [|e es IH]; intros sv Hsv; simpl; [done|].
    apply IH. by apply numbered_serve. }
  apply Hall. intros j c Hj. simpl in Hj. by rewrite lookup_empty in Hj.
Qed.

Lemma sse_listeners_return sv c m :
  connections_ok sv ->
  forall id g, listener (channels sv) c id = Some g -> g m = Returns.
Proof. intros (_ & _ & Hl & _) id g Hg. by destruct (Hl c id g Hg) as [-> _]. Qed.

Lemma dispatch_all_return cm c m :
  tables_ok cm -> plain c ->
  (forall id g, listener cm c id = Some g -> g m = Returns) ->
  outcome (on_message c m cm) = Returns
  /\ forall id g, listener cm c id = Some g ->
       calls_to id (calls (on_message c m cm)) = [(id, m)].
Proof.
  intros (Hown & _ & _) Hplain Hret. unfold on_message.
  destruct (subscribers cm !! c) as [subs|] eqn:Hc.
  - rewrite (subscribers_at_table cm c subs Hc).
    destruct (Hown c subs Hc) as (_ & Hsorted & _).
    assert (Hall : Forall (fun kv => kv.2 m = Returns) subs).
    { apply (sorted_get_all subs (fun g => g m = Returns) Hsorted).
      intros id g Hget. apply (Hret id). by rewrite (listener_get cm c subs). }
    split; [by rewrite (forEach_returns subs m Hall)|].
    intros id g Hl. rewrite (listener_get cm c subs) in Hl by done.
    assert (Honce : calls_to id (forEach subs m).1 = [(id, m)]).
    { apply (forEach_once subs id g m Hsorted Hl).
      intros j g' _ Hj. apply (Hret j). by rewrite (listener_get cm c subs). }
    by destruct (forEach subs m).
  - rewrite (subscribers_at_undefined cm c Hc Hplain).
    split; [done|]. intros id g Hl. unfold listener in Hl.
    by rewrite (subscribers_at_undefined cm c Hc Hplain) in Hl.
Qed.

(** X16: in the plugin a message of the broker reaches every open connection
    of its channel, when the channel id of the user names no member of
    [Object.prototype] and no connection was ever opened for the channel id
    [__proto__].  All listeners are stream writers, which return, so the
    handler returns and each connection that listens on the channel and is
    still connected gets exactly one more event, carrying the message. *)
Theorem message_reaches_open_connections
    (ack : string -> string -> promise nat) (o : option (request -> string))
    (store : gmap string (gset string)) (es : list happening)
    (u m : string) (id : nat) (s : sse) :
  let sv := serve_all ack es (register o store) in
  plain u -> off_prototype sv ->
  connections sv !! id = Some (Connection u s true) ->
  connections (deliver u m sv) !! id = Some (Connection u (sse_write m s) true)
  /\ outcome (on_message u m (channels sv)) = Returns.
Proof.
  intros sv Hplain _ Hconn.
  assert (Hall : connections_ok sv) by apply connections_ok_serve_all, connections_ok_register.
  pose proof Hall as (Hok & _ & _ & Hc & _).
  destruct (dispatch_all_return (channels sv) u m Hok Hplain
              (sse_listeners_return sv u m Hall)) as [Hout Honce].
  split; [|done].
  unfold deliver. cbn [connections]. rewrite lookup_apply_calls, Hconn. simpl.
  by rewrite (Honce id sse_listener (Hc id u s Hconn)).
Qed.

Lemma prototype_listeners_have_connections sv id :
  connections_ok sv -> off_prototype sv ->
  Obj.get id (props_on (channels sv) "__proto__") = None.
Proof.
  intros (Hok & _ & Hl & _) Hoff.
  rewrite <- (listener_on_prototype (channels sv) id Hok).
  destruct (listener (channels sv) "__proto__" id) as [g|] eqn:Hg; [|done].
  destruct (Hl "__proto__" id g Hg) as (_ & s & Hs).
  by destruct (Hoff id _ Hs).
Qed.

(** X17: a message of the broker writes nothing to a connection that listens
    on another channel or that has disconnected, as long as no connection was
    ever opened for the channel id [__proto__]. *)
Theorem message_skips_other_connections
    (ack : string -> string -> promise nat) (o : option (request -> string))
    (store : gmap string (gset string)) (es : list happening)
    (c m : string) (id : nat) (conn : connection) :
  let sv := serve_all ack es (register o store) in
  off_prototype sv ->
  connections sv !! id = Some conn ->
  user_channel conn ≠ c \/ connected conn = false ->
  connections (deliver c m sv) !! id = Some conn.
Proof.
  intros sv Hoff Hconn Hother.
  assert (Hall : connections_ok sv) by apply connections_ok_serve_all, connections_ok_register.
  pose proof Hall as (_ & _ & Hl & _ & _).
  assert (Hnone : listener (channels sv) c id = None).
  { destruct (listener (channels sv) c id) as [g|] eqn:Hg; [|done].
    destruct (Hl c id g Hg) as (_ & s & Hs). rewrite Hconn in Hs.
    injection Hs as ->. simpl in Hother. by destruct Hother. }
  unfold deliver. cbn [connections]. rewrite lookup_apply_calls, Hconn. simpl.
  rewrite (not_listening_not_called _ _ _ _ Hnone
             (prototype_listeners_have_connections sv id Hall Hoff)).
  by destruct conn.
Qed.

(** The proviso is needed: the connection of a user whose channel id
    is [__proto__] is written to by a message on [constructor]. *)
Lemma prototype_connection_gets_other_messages :
  connections listening_on_prototype !! 0 = Some (Connection "__proto__" (Sse 0 []) true)
  /\ connections (deliver "constructor" "hello" listening_on_prototype) !! 0
     = Some (Connection "__proto__" (sse_write "hello" (Sse 0 [])) true).
Proof. split; vm_compute; reflexivity. Qed.

(** X18: the plugin is subscribed at the broker to exactly the channels of
    the users with an open connection, and the registry has an entry for
    exactly those channels, for users whose channel id names no member of
    [Object.prototype], and when no connection was ever opened for the channel
    id [__proto__]. *)
Theorem subscribed_while_connected
    (ack : string -> string -> promise nat) (o : option (request -> string))
    (store : gmap string (gset string)) (es : list happening) (u : string) :
  let sv := serve_all ack es (register o store) in
  plain u -> off_prototype sv ->
  (u ∈ active (subConn (channels sv))
   <-> exists id s, connections sv !! id = Some (Connection u s true))
  /\ (is_Some (subscribers (channels sv) !! u)
      <-> exists id s, connections sv !! id = Some (Connection u s true)).
Proof.
  intros sv Hplain _.
  assert (Hall : connections_ok sv) by apply connections_ok_serve_all, connections_ok_register.
  destruct Hall as (Hok & Hb & Hl & Hc & _).
  assert (Hentry : is_Some (subscribers (channels sv) !! u)
                   <-> exists id s, connections sv !! id = Some (Connection u s true)).
  { split.
    - intros Hsome. destruct (entry_has_listener _ _ Hok Hsome) as (id & g & Hg).
      destruct (Hl u id g Hg) as (_ & s & Hs). eauto.
    - intros (id & s & Hs). pose proof (Hc id u s Hs) as Hg.
      unfold listener in Hg.
      destruct (subscribers (channels sv) !! u) as [subs|] eqn:Hu; [eauto|].
      by rewrite (subscribers_at_undefined (channels sv) u Hu Hplain) in Hg. }
  split; [|exact Hentry]. by rewrite <- (Hb u).
Qed.

(** For a user whose channel id is [toString] it is otherwise: the
    connection is open, yet the plugin is not subscribed at the broker, the
    registry has no entry, and a message on the channel writes nothing. *)
Lemma connection_on_inherited_channel_is_not_served :
  connections listening_on_toString !! 0 = Some (Connection "toString" (Sse 0 []) true)
  /\ subConn (channels listening_on_toString) = []
  /\ subscribers (channels listening_on_toString) !! "toString" = None
  /\ connections (deliver "toString" "hello" listening_on_toString) !! 0
     = Some (Connection "toString" (Sse 0 []) true).
Proof. repeat split; vm_compute; reflexivity. Qed.

Lemma off_prototype_one_listener : off_prototype one_listener.
Proof.
  intros id conn. destruct id as [|id].
  - vm_compute. intros [= <-]. intros H. discriminate H.
  - intros Hlook. exfalso.
    assert (Hok : connections_ok one_listener)
      by apply connections_ok_serve_all, connections_ok_register.
    destruct Hok as (_ & _ & _ & _ & Hid). apply Hid in Hlook.
    vm_compute in Hlook. lia.
Qed.

Lemma sse_events_are_numbered_witness :
  connections one_listener !! 0
  = Some (Connection "me" (Sse 1 ["id: 0" +:+ LF; "data: hello" +:+ LF +:+ LF]) true)
  /\ exists messages,
       ["id: 0" +:+ LF; "data: hello" +:+ LF +:+ LF] = frames 0 messages
       /\ 1 = length messages.
Proof.
  assert (H : connections one_listener !! 0
              = Some (Connection "me" (Sse 1 ["id: 0" +:+ LF; "data: hello" +:+ LF +:+ LF]) true))
    by (vm_compute; reflexivity).
  split; [exact H|].
  exact (sse_events_are_numbered deaf_to_you None ∅
           [GetEvents request_of_me; Message "me" "hello"] 0 _ H).
Defined.

Lemma message_reaches_open_connections_witness :
  connections (deliver "me" "again" one_listener) !! 0
  = Some (Connection "me"
            (sse_write "again" (Sse 1 ["id: 0" +:+ LF; "data: hello" +:+ LF +:+ LF])) true)
  /\ outcome (on_message "me" "again" (channels one_listener)) = Returns.
Proof.
  apply (message_reaches_open_connections deaf_to_you None ∅
           [GetEvents request_of_me; Message "me" "hello"] "me" "again" 0).
  - reflexivity.
  - exact off_prototype_one_listener.
  - vm_compute. reflexivity.
Defined.

Lemma message_skips_other_connections_witness :
  connections (deliver "you" "again" one_listener) !! 0
  = Some (Connection "me" (Sse 1 ["id: 0" +:+ LF; "data: hello" +:+ LF +:+ LF]) true).
Proof.
  apply (message_skips_other_connections deaf_to_you None ∅
           [GetEvents request_of_me; Message "me" "hello"] "you" "again" 0).
  - exact off_prototype_one_listener.
  - vm_compute. reflexivity.
  - left. simpl. intros H. discriminate H.
Defined.

Lemma subscribed_while_connected_witness :
  ("me" ∈ active (subConn (channels one_listener))
   <-> exists id s, connections one_listener !! id = Some (Connection "me" s true))
  /\ (is_Some (subscribers (channels one_listener) !! "me")
      <-> exists id s, connections one_listener !! id = Some (Connection "me" s true)).
Proof.
  apply (subscribed_while_connected deaf_to_you None ∅
           [GetEvents request_of_me; Message "me" "hello"] "me").
  - reflexivity.
  - exact off_prototype_one_listener.
Defined.

(** X19: the room routes.  After [PUT /events/{room}] by a user, a
    [POST /events/{room}] to the same room publishes its payload to the channel
    of that user exactly once; after [DELETE /events/{room}] by the user it
    publishes nothing to that channel.  Neither route touches the registry or
    the connections. *)
Theorem room_routes
    (ack : string -> string -> promise nat) (req post : request) (sv : server) :
  let u := userMethod sv req in
  let key := subscribersKey (params_room req) in
  params_room post = params_room req ->
  (exists issued,
     sent (pubConn (channels (post_room ack post (put_room req sv))))
     = sent (pubConn (channels (put_room req sv))) ++ SMEMBERS key :: issued
     /\ filter (fun cmd => cmd = PUBLISH u (payload post)) issued
        = [PUBLISH u (payload post)])
  /\ (exists issued,
        sent (pubConn (channels (post_room ack post (delete_room req sv))))
        = sent (pubConn (channels (delete_room req sv))) ++ SMEMBERS key :: issued
        /\ forall m, PUBLISH u m ∉ issued)
  /\ subscribers (channels (post_room ack post (put_room req sv)))
     = subscribers (channels sv)
  /\ connections (post_room ack post (put_room req sv)) = connections sv.
Proof.
  intros u key Hroom. unfold post_room, put_room, delete_room.
  cbn [channels userMethod connections]. rewrite Hroom. fold u.
  split; [|split; [|split; [|done]]].
  - eexists. rewrite broadcast_spec. cbn [snd pubConn sent]. split; [done|].
    apply one_publish_each; [apply NoDup_elements|].
    rewrite elem_of_elements, room_members_enter, decide_True by done.
    apply elem_of_union. left. by apply elem_of_singleton.
  - eexists. rewrite broadcast_spec. cbn [snd pubConn sent]. split; [done|].
    intros m. apply not_published.
    rewrite elem_of_elements, room_members_leave, decide_True by done.
    rewrite elem_of_difference, elem_of_singleton. by intros [_ ?].
  - rewrite broadcast_spec. cbn [snd subscribers].
    unfold enter, ninvoke. by destruct (sadd _ _ _).
Qed.

Lemma room_routes_witness :
  exists issued,
    sent (pubConn (channels (post_room deaf_to_you request_of_me
                               (put_room request_of_me one_listener))))
    = sent (pubConn (channels (put_room request_of_me one_listener)))
      ++ SMEMBERS (subscribersKey "party-room") :: issued
    /\ filter (fun cmd => cmd = PUBLISH "me" "hello") issued = [PUBLISH "me" "hello"].
Proof.
  exact (proj1 (room_routes deaf_to_you request_of_me request_of_me one_listener eq_refl)).
Defined.
